(** * Configurator (src/js/main.js): a shallow embedding and its properties

    The [Configurator] class keeps three private arrays ([#meshes],
    [#materials], [#textures]) and mutates, besides its own entries, two kinds
    of objects owned by the rendering engine: a renderable mesh (its
    [material] property) and a renderable material (its [diffuseTexture] and
    [bumpTexture] properties).

    JavaScript objects have identity.  A material entry is pushed once into
    [#materials] and then referenced from any number of mesh entries, and
    [haveSameMaterial] compares such references with [===]; material entries
    therefore live in an explicit heap, addressed by location.  A mesh entry
    and a texture entry are only ever reachable through their own array slot,
    so they are stored in the arrays by value.  Engine objects are known by a
    handle, and their mutable properties are kept in finite maps where an
    absent key stands for [null]/[undefined]. *)

From stdpp Require Import gmap strings list fin_maps.
From Stdlib Require Import ZArith.

Local Open Scope Z_scope.

(** ** Values *)

Definition MeshHandle := nat.      (* a BABYLON mesh object *)
Definition MaterialHandle := nat.  (* a BABYLON material object *)
Definition TextureHandle := nat.   (* a BABYLON texture object *)
Definition loc := nat.             (* identity of a material entry object *)

(** [{ material: material, textureIndex: textureIndex }] *)
Record MaterialData := mkMaterialData {
  material : MaterialHandle;
  textureIndex : Z
}.

(** [{ mesh: mesh, materialData: ... }]; [None] is [undefined]. *)
Record MeshData := mkMeshData {
  mesh : MeshHandle;
  materialData : option loc
}.

(** [{ name, diffuseTexture, bumpTexture }]; [None] is [null]. *)
Record TextureData := mkTextureData {
  name : string;
  diffuseTexture : option TextureHandle;
  bumpTexture : option TextureHandle
}.

(** The mutable properties of the engine's objects that the class touches. *)
Record Engine := mkEngine {
  meshMaterial : gmap nat MaterialHandle;      (* mesh.material *)
  materialDiffuse : gmap nat TextureHandle;    (* material.diffuseTexture *)
  materialBump : gmap nat TextureHandle        (* material.bumpTexture *)
}.

Record Store := mkStore {
  meshes : list MeshData;          (* #meshes *)
  materials : list loc;            (* #materials, an array of references *)
  textures : list TextureData;     (* #textures *)
  heap : gmap nat MaterialData;    (* the material entry objects *)
  engine : Engine
}.

Global Instance MaterialData_eq_dec : EqDecision MaterialData.
Proof. solve_decision. Defined.
Global Instance MeshData_eq_dec : EqDecision MeshData.
Proof. solve_decision. Defined.
Global Instance TextureData_eq_dec : EqDecision TextureData.
Proof. solve_decision. Defined.

(** ** Array and property access *)

(** [a[i]] for an integer [i]: [undefined] outside [0 .. a.length - 1]. *)
Definition index {A} (a : list A) (i : Z) : option A :=
  if decide (0 <= i) then a !! Z.to_nat i else None.

(** [a[undefined]] is [undefined] as well. *)
Definition index_opt {A} (a : list A) (i : option Z) : option A :=
  match i with Some i => index a i | None => None end.

(** [o.p = v] on an engine object, [v] possibly [null]. *)
Definition assign (o : nat) (v : option nat) (m : gmap nat nat) : gmap nat nat :=
  match v with Some x => <[o := x]> m | None => delete o m end.

Definition with_meshes (f : list MeshData → list MeshData) (s : Store) : Store :=
  mkStore (f (meshes s)) (materials s) (textures s) (heap s) (engine s).
Definition with_materials (f : list loc → list loc) (s : Store) : Store :=
  mkStore (meshes s) (f (materials s)) (textures s) (heap s) (engine s).
Definition with_textures (f : list TextureData → list TextureData) (s : Store) : Store :=
  mkStore (meshes s) (materials s) (f (textures s)) (heap s) (engine s).
Definition with_heap (f : gmap nat MaterialData → gmap nat MaterialData) (s : Store) : Store :=
  mkStore (meshes s) (materials s) (textures s) (f (heap s)) (engine s).
Definition with_engine (f : Engine → Engine) (s : Store) : Store :=
  mkStore (meshes s) (materials s) (textures s) (heap s) (f (engine s)).

Definition set_meshMaterial (m : MeshHandle) (v : MaterialHandle) (e : Engine) : Engine :=
  mkEngine (<[m := v]> (meshMaterial e)) (materialDiffuse e) (materialBump e).
Definition set_diffuseTexture (m : MaterialHandle) (v : option TextureHandle) (e : Engine) : Engine :=
  mkEngine (meshMaterial e) (assign m v (materialDiffuse e)) (materialBump e).
Definition set_bumpTexture (m : MaterialHandle) (v : option TextureHandle) (e : Engine) : Engine :=
  mkEngine (meshMaterial e) (materialDiffuse e) (assign m v (materialBump e)).

(** ** Computations: state, and exceptions that keep the writes made so far *)

Inductive Error := TypeError.

Definition Js (A : Type) : Type := Store → (Error + A) * Store.

Definition ret {A} (a : A) : Js A := fun s => (inr a, s).
Definition throw {A} (e : Error) : Js A := fun s => (inl e, s).
Definition bind {A B} (c : Js A) (k : A → Js B) : Js B :=
  fun s => match c s with
           | (inr a, s') => k a s'
           | (inl e, s') => (inl e, s')
           end.
Definition gets {A} (f : Store → A) : Js A := fun s => (inr (f s), s).
Definition modify (f : Store → Store) : Js unit := fun s => (inr tt, f s).

(** Reading a property of a value that may be [undefined] or [null]. *)
Definition defined {A} (v : option A) : Js A :=
  match v with Some a => ret a | None => throw TypeError end.

Notation "'let*' x ':=' c 'in' k" := (bind c (fun x => k))
  (at level 10, x name, c at level 100, k at level 200).
Notation "c ';;;' k" := (bind c (fun _ => k))
  (at level 100, k at level 200, right associativity).

(** ** The class *)

(** [new Configurator()], in a page whose engine objects are as [e]. *)
Definition newConfigurator (e : Engine) : Store :=
  mkStore [] [] [mkTextureData "None" None None] ∅ e.

(** [addMesh(mesh, materialIndex)]. *)
Definition addMesh (mesh : MeshHandle) (materialIndex : option Z) : Js unit :=
  let* entry := gets (fun s => mkMeshData mesh (index_opt (materials s) materialIndex)) in
  modify (with_meshes (fun a => a ++ [entry])).

(** [addMaterial(material, textureIndex = 0)]; the object literal is a new
    object, so it gets a location that the heap does not use yet. *)
Definition addMaterial (material : MaterialHandle) (textureIndex : option Z) : Js unit :=
  let textureIndex := default 0 textureIndex in
  let* l := gets (fun s => fresh (dom (heap s))) in
  modify (with_heap <[l := mkMaterialData material textureIndex]>) ;;;
  modify (with_materials (fun a => a ++ [l])).

(** [addTexture(name, diffuseTexture = null, bumpTexture = null)]. *)
Definition addTexture (name : string) (diffuseTexture bumpTexture : option TextureHandle)
  : Js unit :=
  modify (with_textures (fun a => a ++ [mkTextureData name diffuseTexture bumpTexture])).

(** [setMaterial(meshIndex, materialIndex)]. *)
Definition setMaterial (meshIndex materialIndex : Z) : Js Z :=
  let* materialData := gets (fun s => index (materials s) materialIndex) in
  let* meshData := gets (fun s => index (meshes s) meshIndex) in
  (* meshData.mesh.material = materialData.material; *)
  let* md := defined meshData in
  let* l := defined materialData in
  let* entry := gets (fun s => heap s !! l) in
  let* entry := defined entry in
  modify (with_engine (set_meshMaterial (mesh md) (material entry))) ;;;
  (* meshData.materialData = materialData; *)
  modify (with_meshes <[Z.to_nat meshIndex := mkMeshData (mesh md) (Some l)]>) ;;;
  (* return materialData.textureIndex; *)
  ret (textureIndex entry).

(** [setTexture(meshIndex, textureIndex)]. *)
Definition setTexture (meshIndex textureIndex : Z) : Js unit :=
  let* textureData := gets (fun s => index (textures s) textureIndex) in
  let* meshData := gets (fun s => index (meshes s) meshIndex) in
  (* meshData.mesh.material.diffuseTexture = textureData.diffuseTexture; *)
  let* md := defined meshData in
  let* m := gets (fun s => meshMaterial (engine s) !! mesh md) in
  let* m := defined m in
  let* td := defined textureData in
  modify (with_engine (set_diffuseTexture m (diffuseTexture td))) ;;;
  (* meshData.mesh.material.bumpTexture = textureData.bumpTexture; *)
  modify (with_engine (set_bumpTexture m (bumpTexture td))) ;;;
  (* meshData.materialData.textureIndex = textureIndex; *)
  let* l := defined (materialData md) in
  let* entry := gets (fun s => heap s !! l) in
  let* entry := defined entry in
  modify (with_heap <[l := mkMaterialData (material entry) textureIndex]>).

(** [haveSameMaterial(mesh1, mesh2)]: [===] on two references, or on
    [undefined]. *)
Definition haveSameMaterial (mesh1 mesh2 : Z) : Js bool :=
  let* d1 := gets (fun s => index (meshes s) mesh1) in
  let* d1 := defined d1 in
  let* d2 := gets (fun s => index (meshes s) mesh2) in
  let* d2 := defined d2 in
  ret (bool_decide (materialData d1 = materialData d2)).

(** ** Sequences of calls *)

Inductive Call :=
| AddMesh (mesh : MeshHandle) (materialIndex : option Z)
| AddMaterial (material : MaterialHandle) (textureIndex : option Z)
| AddTexture (name : string) (diffuseTexture bumpTexture : option TextureHandle)
| SetMaterial (meshIndex materialIndex : Z)
| SetTexture (meshIndex textureIndex : Z)
| HaveSameMaterial (mesh1 mesh2 : Z).

(** The store a call leaves behind, whether it returned or threw. *)
Definition call (c : Call) (s : Store) : Store :=
  match c with
  | AddMesh m i => (addMesh m i s).2
  | AddMaterial m t => (addMaterial m t s).2
  | AddTexture n d b => (addTexture n d b s).2
  | SetMaterial m i => (setMaterial m i s).2
  | SetTexture m t => (setTexture m t s).2
  | HaveSameMaterial a b => (haveSameMaterial a b s).2
  end.

Definition run (cs : list Call) (s : Store) : Store := foldl (fun s c => call c s) s cs.

Definition in_range {A} (a : list A) (i : Z) : Prop := 0 <= i < Z.of_nat (length a).

Global Instance in_range_dec {A} (a : list A) i : Decision (in_range a i).
Proof. unfold in_range. apply _. Defined.

(** The material entry that [#materials[i]] refers to. *)
Definition materialAt (s : Store) (i : Z) : option MaterialData :=
  index (materials s) i ≫= fun l => heap s !! l.

(** The material entry that [#meshes[m].materialData] refers to. *)
Definition materialOf (s : Store) (m : Z) : option MaterialData :=
  index (meshes s) m ≫= fun md => materialData md ≫= fun l => heap s !! l.

(** No reference dangles, and [#materials] holds each entry once: what
    allocation by an object literal and [push] give. *)
Record wf (s : Store) : Prop := mkWf {
  wf_nodup : NoDup (materials s);
  wf_materials : ∀ l, l ∈ materials s → is_Some (heap s !! l);
  wf_meshes : ∀ md l, md ∈ meshes s → materialData md = Some l → is_Some (heap s !! l)
}.

(** The sentinel of [#textures]. *)
Definition sentinel : TextureData := mkTextureData "None" None None.

Definition has_sentinel (s : Store) : Prop := index (textures s) 0 = Some sentinel.

(** ** Classes of calls *)

Definition is_setTexture (c : Call) : bool :=
  match c with SetTexture _ _ => true | _ => false end.

(** [c] is [setMaterial(a, _)]. *)
Definition reassigns (a : Z) (c : Call) : bool :=
  match c with SetMaterial m _ => bool_decide (m = a) | _ => false end.

(** ** The history of assignments *)

(** The material indices passed to the assigning calls of [c] are in bounds
    in [s]: the mesh and the material index of a [setMaterial], the material
    index of an [addMesh] that has one. *)
Definition assigns_in_bounds (c : Call) (s : Store) : Prop :=
  match c with
  | AddMesh _ (Some i) => in_range (materials s) i
  | SetMaterial m i => in_range (meshes s) m ∧ in_range (materials s) i
  | _ => True
  end.

Fixpoint all_in_bounds (cs : list Call) (s : Store) : Prop :=
  match cs with
  | [] => True
  | c :: cs => assigns_in_bounds c s ∧ all_in_bounds cs (call c s)
  end.

(** In the specification's words: the material index used by the last
    [setMaterial] or [addMesh]-with-material call for mesh [a] in [cs], when
    [n] meshes were registered before [cs] and the last such call before [cs]
    used [cur]. *)
Fixpoint last_assigned (n : nat) (cs : list Call) (a : Z) (cur : option Z) : option Z :=
  match cs with
  | [] => cur
  | AddMesh _ i :: cs =>
      last_assigned (S n) cs a (if decide (a = Z.of_nat n) then i else cur)
  | SetMaterial m i :: cs =>
      last_assigned n cs a (if decide (a = m) then Some i else cur)
  | _ :: cs => last_assigned n cs a cur
  end.

(** Mesh entry [a] refers to the material entry at index [i]. *)
Definition refers_to (s : Store) (a i : Z) : Prop :=
  ∃ md l, index (meshes s) a = Some md ∧ materialData md = Some l ∧
          index (materials s) i = Some l.

(** ** Example stores *)

(** An engine in which no object has any property set. *)
Definition blank : Engine := mkEngine ∅ ∅ ∅.

(** A page with two materials, a mesh registered on the first, a mesh
    registered without a material, and one texture besides the sentinel. *)
Definition page : Store :=
  run [AddMaterial 7%nat None; AddMaterial 8%nat None;
       AddMesh 1%nat (Some 0); AddMesh 2%nat None;
       AddTexture "Rock" (Some 3%nat) (Some 4%nat)]
      (newConfigurator blank).

(** The page after [setMaterial(0, 1)]: mesh 0 carries material 8. *)
Definition page1 : Store := call (SetMaterial 0 1) page.

(** As [createScene] registers them: two materials, two meshes on material 0;
    then calls as the dropdowns make them. *)
Definition script : list Call :=
  [AddMaterial 7%nat None; AddMaterial 8%nat None;
   AddMesh 1%nat (Some 0); AddMesh 2%nat (Some 0);
   SetMaterial 1 1; SetTexture 1 0; SetMaterial 0 1; SetMaterial 1 0].

(** Decide [in_range] on a closed store. *)
Ltac in_range_tac := vm_compute; split; [discriminate | reflexivity].

(** ** Further classes of calls and stores *)

Definition is_addMesh (c : Call) : bool :=
  match c with AddMesh _ _ => true | _ => false end.
Definition is_addMaterial (c : Call) : bool :=
  match c with AddMaterial _ _ => true | _ => false end.
Definition is_addTexture (c : Call) : bool :=
  match c with AddTexture _ _ _ => true | _ => false end.

(** The call returned, rather than threw. *)
Definition returned {A} (r : Error + A) : Prop :=
  match r with inr _ => True | inl _ => False end.

(** Every mesh entry that has a material refers to an element of
    [#materials]. *)
Definition closed (s : Store) : Prop :=
  ∀ md l, md ∈ meshes s → materialData md = Some l → l ∈ materials s.

(** Every material entry of [#materials] remembers a texture index that
    [#textures] has. *)
Definition indices_valid (s : Store) : Prop :=
  ∀ i e, materialAt s i = Some e → in_range (textures s) (textureIndex e).

(** A texture index passed to [addMaterial] is in bounds in [s]. *)
Definition explicit_in_bounds (c : Call) (s : Store) : Prop :=
  match c with
  | AddMaterial _ (Some t) => in_range (textures s) t
  | _ => True
  end.

Fixpoint all_explicit_in_bounds (cs : list Call) (s : Store) : Prop :=
  match cs with
  | [] => True
  | c :: cs => explicit_in_bounds c s ∧ all_explicit_in_bounds cs (call c s)
  end.

(** An engine in which the renderable meshes 1 and 2 came with materials of
    their own, 5 and 6, and the page registered in it. *)
Definition loaded : Engine := mkEngine {[1%nat := 5%nat; 2%nat := 6%nat]} ∅ ∅.

Definition loaded_page : Store :=
  run [AddMaterial 7%nat None; AddMaterial 8%nat None;
       AddMesh 1%nat (Some 0); AddMesh 2%nat None;
       AddTexture "Rock" (Some 3%nat) (Some 4%nat)]
      (newConfigurator loaded).

(** ** The page: accessors, scene set-up and control panel

    The rest of main.js drives the class.  The DOM objects it uses are four
    [select] elements.  Of a [select] the code uses [add] (append an option),
    the [value] setter (select the first option with that value, or none if
    no option has it) and [this.value] in a change handler (the value of the
    option the user picked); a drop-down list without a selected option
    selects its first option when one is added.  Option values are the
    decimal strings of array indices, kept here as integers. *)

(** [get materials()] and [get textures()]. *)
Definition get_materials : Js (list loc) := gets materials.
Definition get_textures : Js (list TextureData) := gets textures.

(** [createScene], as far as the configurator goes; the objects made by
    [new] are arguments. *)
Definition createScene (mat0 mat1 mat2 mat3 : MaterialHandle)
    (stones stonesn rock rockn : TextureHandle) : Js unit :=
  addMaterial mat0 None ;;;
  addMaterial mat1 None ;;;
  addMaterial mat2 None ;;;
  addMaterial mat3 None ;;;
  addTexture "Stones" (Some stones) (Some stonesn) ;;;
  addTexture "Rock" (Some rock) (Some rockn).

(** The callback of [ImportMesh], on [meshes[0]] and [meshes[1]]. *)
Definition onImport (meshes0 meshes1 : MeshHandle) : Js unit :=
  addMesh meshes0 (Some 0) ;;;
  addMesh meshes1 (Some 0).

Record OptionElement := mkOption { text : string; value : Z }.

Record Select := mkSelect {
  options : list OptionElement;
  selected : option Z            (* [select.value]; [None] is the empty string *)
}.

Definition values (sel : Select) : list Z := value <$> options sel.

(** [select.add(el)]. *)
Definition select_add (el : OptionElement) (sel : Select) : Select :=
  mkSelect (options sel ++ [el])
           (match selected sel with
            | Some v => Some v
            | None => value <$> head (options sel ++ [el])
            end).

(** [select.value = v]. *)
Definition set_value (v : Z) (sel : Select) : Select :=
  mkSelect (options sel) (if decide (v ∈ values sel) then Some v else None).

Record Panel := mkPanel {
  lidMatSelect : Select;
  potMatSelect : Select;
  lidTexSelect : Select;
  potTexSelect : Select
}.

Definition with_lidMatSelect (f : Select → Select) (p : Panel) : Panel :=
  mkPanel (f (lidMatSelect p)) (potMatSelect p) (lidTexSelect p) (potTexSelect p).
Definition with_potMatSelect (f : Select → Select) (p : Panel) : Panel :=
  mkPanel (lidMatSelect p) (f (potMatSelect p)) (lidTexSelect p) (potTexSelect p).
Definition with_lidTexSelect (f : Select → Select) (p : Panel) : Panel :=
  mkPanel (lidMatSelect p) (potMatSelect p) (f (lidTexSelect p)) (potTexSelect p).
Definition with_potTexSelect (f : Select → Select) (p : Panel) : Panel :=
  mkPanel (lidMatSelect p) (potMatSelect p) (lidTexSelect p) (f (potTexSelect p)).

(** The first loop of [initControlPanel], for the indices [ixs] still to
    come; [names] is the [name] property of the engine's materials. *)
Fixpoint populate_materials (names : MaterialHandle → string) (ixs : list nat) (p : Panel)
  : Js Panel :=
  match ixs with
  | [] => ret p
  | i :: ixs =>
      (* el.text = configurator.materials[i].material.name; el.value = i; *)
      let* ms := get_materials in
      let* l := defined (ms !! i) in
      let* entry := gets (fun s => heap s !! l) in
      let* entry := defined entry in
      let el := mkOption (names (material entry)) (Z.of_nat i) in
      (* lidMatSelect.add(el.cloneNode(true)); potMatSelect.add(el); *)
      populate_materials names ixs (with_potMatSelect (select_add el) (with_lidMatSelect (select_add el) p))
  end.

(** The second loop. *)
Fixpoint populate_textures (ixs : list nat) (p : Panel) : Js Panel :=
  match ixs with
  | [] => ret p
  | i :: ixs =>
      (* el.text = configurator.textures[i].name; el.value = i; *)
      let* ts := get_textures in
      let* td := defined (ts !! i) in
      let el := mkOption (name td) (Z.of_nat i) in
      (* lidTexSelect.add(el.cloneNode(true)); potTexSelect.add(el); *)
      populate_textures ixs (with_potTexSelect (select_add el) (with_lidTexSelect (select_add el) p))
  end.

(** [initControlPanel], up to the registration of the handlers. *)
Definition initControlPanel (names : MaterialHandle → string) (p : Panel) : Js Panel :=
  let* ms := get_materials in
  let* p := populate_materials names (seq 0 (length ms)) p in
  let* ts := get_textures in
  populate_textures (seq 0 (length ts)) p.

(** The four change handlers; [v] is [this.value]. *)
Definition lidMat_change (v : Z) (p : Panel) : Js Panel :=
  (* lidTexSelect.value = configurator.setMaterial(1, this.value); *)
  let* t := setMaterial 1 v in
  ret (with_lidTexSelect (set_value t) p).

Definition potMat_change (v : Z) (p : Panel) : Js Panel :=
  (* potTexSelect.value = configurator.setMaterial(0, this.value); *)
  let* t := setMaterial 0 v in
  ret (with_potTexSelect (set_value t) p).

Definition lidTex_change (v : Z) (p : Panel) : Js Panel :=
  setTexture 1 v ;;;
  let* same := haveSameMaterial 0 1 in
  ret (if same then with_potTexSelect (set_value v) p else p).

Definition potTex_change (v : Z) (p : Panel) : Js Panel :=
  setTexture 0 v ;;;
  let* same := haveSameMaterial 0 1 in
  ret (if same then with_lidTexSelect (set_value v) p else p).

Inductive Dropdown := LidMat | PotMat | LidTex | PotTex.

Definition select_of (d : Dropdown) (p : Panel) : Select :=
  match d with
  | LidMat => lidMatSelect p
  | PotMat => potMatSelect p
  | LidTex => lidTexSelect p
  | PotTex => potTexSelect p
  end.

(** The user picks the option with value [v] in dropdown [d]. *)
Definition pick (d : Dropdown) (v : Z) (p : Panel) : Panel :=
  let choose sel := mkSelect (options sel) (Some v) in
  match d with
  | LidMat => with_lidMatSelect choose p
  | PotMat => with_potMatSelect choose p
  | LidTex => with_lidTexSelect choose p
  | PotTex => with_potTexSelect choose p
  end.

Definition handler (d : Dropdown) : Z → Panel → Js Panel :=
  match d with
  | LidMat => lidMat_change
  | PotMat => potMat_change
  | LidTex => lidTex_change
  | PotTex => potTex_change
  end.

(** A change event: the pick shows, then the handler runs; an exception
    ends the handler and is not caught, what was written stays. *)
Definition change (d : Dropdown) (v : Z) (sp : Store * Panel) : Store * Panel :=
  let p := pick d v sp.2 in
  match handler d v p sp.1 with
  | (inr p', s') => (s', p')
  | (inl _, s') => (s', p)
  end.

Definition changes (evs : list (Dropdown * Z)) (sp : Store * Panel) : Store * Panel :=
  foldl (fun sp ev => change ev.1 ev.2 sp) sp evs.

(** Dropdowns [mat] and [tex] show what mesh [k] has: the renderable mesh
    carries a material, the mesh entry refers to the material entry whose
    index [mat] shows, and [tex] shows the texture index that entry
    remembers. *)
Definition shows (s : Store) (k : Z) (mat tex : Select) : Prop :=
  ∃ md l e i,
    index (meshes s) k = Some md ∧
    is_Some (meshMaterial (engine s) !! mesh md) ∧
    materialData md = Some l ∧
    index (materials s) i = Some l ∧
    heap s !! l = Some e ∧
    selected mat = Some i ∧
    selected tex = Some (textureIndex e).

Record synced (s : Store) (p : Panel) : Prop := mkSynced {
  synced_wf : wf s;
  synced_pot : shows s 0 (potMatSelect p) (potTexSelect p);
  synced_lid : shows s 1 (lidMatSelect p) (lidTexSelect p);
  synced_materials : ∀ v, v ∈ values (lidMatSelect p) ∨ v ∈ values (potMatSelect p) →
                          in_range (materials s) v;
  synced_textures : ∀ v, v ∈ values (lidTexSelect p) ∨ v ∈ values (potTexSelect p) →
                         in_range (textures s) v;
  synced_same : values (lidTexSelect p) = values (potTexSelect p);
  synced_offered : ∀ i e, materialAt s i = Some e →
                          textureIndex e ∈ values (lidTexSelect p) ∧
                          textureIndex e ∈ values (potTexSelect p)
}.

(** The page once [createScene], [initControlPanel] and the import callback
    have run, in that order. *)
Definition loadPage (e : Engine) (names : MaterialHandle → string)
    (mat0 mat1 mat2 mat3 : MaterialHandle) (stones stonesn rock rockn : TextureHandle)
    (meshes0 meshes1 : MeshHandle) (p : Panel) : (Error + Panel) * Store :=
  (createScene mat0 mat1 mat2 mat3 stones stonesn rock rockn ;;;
   let* p := initControlPanel names p in
   onImport meshes0 meshes1 ;;;
   ret p) (newConfigurator e).

Definition no_options : Select := mkSelect [] None.
Definition empty_panel : Panel := mkPanel no_options no_options no_options no_options.


Definition is_texture_dropdown (d : Dropdown) : bool :=
  match d with LidTex | PotTex => true | LidMat | PotMat => false end.

(** The event picks a value that its dropdown offers. *)
Definition offered (p : Panel) (ev : Dropdown * Z) : Prop :=
  ev.2 ∈ values (select_of ev.1 p).

(** [select.add] for each element of a list, in order. *)
Definition add_all (els : list OptionElement) (sel : Select) : Select :=
  foldl (fun sel el => select_add el sel) sel els.

(** The option elements that the loops of [initControlPanel] make for the
    indices [ixs]. *)
Definition material_option (names : MaterialHandle → string) (s : Store) (i : nat)
  : option OptionElement :=
  (fun e => mkOption (names (material e)) (Z.of_nat i)) <$> materialAt s (Z.of_nat i).
Definition texture_option (s : Store) (i : nat) : option OptionElement :=
  (fun td => mkOption (name td) (Z.of_nat i)) <$> textures s !! i.


(** [c] is a [setTexture] that returns in [s], on a mesh whose entry refers to
    the material entry at index [i], and passes a texture index other than
    [t]: the one kind of call after which that entry no longer remembers
    [t]. *)
Definition overwrites (i t : Z) (c : Call) (s : Store) : Prop :=
  match c with
  | SetTexture m t' => t' ≠ t ∧ refers_to s m i ∧ returned (setTexture m t' s).1
  | _ => False
  end.

(** No call of [cs], run from [s], overwrites. *)
Fixpoint never_overwritten (i t : Z) (cs : list Call) (s : Store) : Prop :=
  match cs with
  | [] => True
  | c :: cs => ¬ overwrites i t c s ∧ never_overwritten i t cs (call c s)
  end.


(** ** Array access *)

Section index_facts.
Context {A : Type}.
Implicit Types (a b : list A) (i : Z) (x : A).

Lemma index_Some a i x : index a i = Some x ↔ 0 <= i ∧ a !! Z.to_nat i = Some x.
Proof.
  unfold index. case_decide.
  - split; [done | by intros [_ ?]].
  - split; [discriminate | by intros [? _]].
Qed.

Lemma index_is_Some a i : is_Some (index a i) ↔ in_range a i.
Proof.
  unfold index, in_range. case_decide.
  - rewrite lookup_lt_is_Some. lia.
  - split; [intros [? ?]; discriminate | lia].
Qed.

Lemma index_None a i : index a i = None ↔ ¬ in_range a i.
Proof. rewrite <- index_is_Some, eq_None_not_Some. done. Qed.

Lemma index_elem_of a i x : index a i = Some x → x ∈ a.
Proof. rewrite index_Some. intros [_ H]. by eapply list_elem_of_lookup_2. Qed.

Lemma index_app_l a b i x : index a i = Some x → index (a ++ b) i = Some x.
Proof. rewrite !index_Some. intros [? ?]. split; [done | by apply lookup_app_l_Some]. Qed.

Lemma index_snoc_length a x : index (a ++ [x]) (Z.of_nat (length a)) = Some x.
Proof.
  apply index_Some. split; [lia |].
  rewrite Nat2Z.id, lookup_app_r, Nat.sub_diag by lia. done.
Qed.

Lemma index_insert_eq a i x :
  in_range a i → index (<[Z.to_nat i := x]> a) i = Some x.
Proof.
  intros [? ?]. apply index_Some. split; [done |].
  apply list_lookup_insert_eq. lia.
Qed.

Lemma index_insert_ne a i j x :
  0 <= i → i ≠ j → index (<[Z.to_nat i := x]> a) j = index a j.
Proof.
  intros ? ?. unfold index. case_decide; [| done].
  apply list_lookup_insert_ne. lia.
Qed.

Lemma index_inj a i j x :
  NoDup a → index a i = Some x → index a j = Some x → i = j.
Proof.
  rewrite !index_Some. intros Hnd [? Hi] [? Hj].
  pose proof (NoDup_lookup _ _ _ _ Hnd Hi Hj). lia.
Qed.
End index_facts.

Lemma assign_lookup_eq o v (m : gmap nat nat) : assign o v m !! o = v.
Proof. destruct v; simpl; [apply lookup_insert_eq | apply lookup_delete_eq]. Qed.

Lemma assign_lookup_ne o o' v (m : gmap nat nat) : o ≠ o' → assign o v m !! o' = m !! o'.
Proof. intros. destruct v; simpl; [by apply lookup_insert_ne | by apply lookup_delete_ne]. Qed.

(** ** What each method does to the store *)

Lemma addMesh_eq mesh i s :
  addMesh mesh i s =
    (inr tt, with_meshes (fun a => a ++ [mkMeshData mesh (index_opt (materials s) i)]) s).
Proof. reflexivity. Qed.

Lemma addMaterial_eq m t s :
  addMaterial m t s =
    (inr tt,
     mkStore (meshes s) (materials s ++ [fresh (dom (heap s))]) (textures s)
             (<[fresh (dom (heap s)) := mkMaterialData m (default 0 t)]> (heap s))
             (engine s)).
Proof. reflexivity. Qed.

Lemma addTexture_eq n d b s :
  addTexture n d b s = (inr tt, with_textures (fun a => a ++ [mkTextureData n d b]) s).
Proof. reflexivity. Qed.

Lemma setMaterial_returns m i s md l e :
  index (meshes s) m = Some md →
  index (materials s) i = Some l →
  heap s !! l = Some e →
  setMaterial m i s =
    (inr (textureIndex e),
     mkStore (<[Z.to_nat m := mkMeshData (mesh md) (Some l)]> (meshes s))
             (materials s) (textures s) (heap s)
             (set_meshMaterial (mesh md) (material e) (engine s))).
Proof.
  intros Hm Hi He. unfold setMaterial, bind, gets, defined; simpl.
  rewrite Hi, Hm; simpl. rewrite He. reflexivity.
Qed.

Lemma setMaterial_throws m i s :
  index (meshes s) m = None ∨ materialAt s i = None →
  setMaterial m i s = (inl TypeError, s).
Proof.
  unfold materialAt, setMaterial, bind, gets, defined; simpl.
  intros [Hm | Hi].
  - rewrite Hm. reflexivity.
  - destruct (index (meshes s) m); [| reflexivity]. simpl.
    destruct (index (materials s) i) as [l |]; [| reflexivity]. simpl in *.
    rewrite Hi. reflexivity.
Qed.

Lemma setTexture_returns m t s md h td l e :
  index (meshes s) m = Some md →
  meshMaterial (engine s) !! mesh md = Some h →
  index (textures s) t = Some td →
  materialData md = Some l →
  heap s !! l = Some e →
  setTexture m t s =
    (inr tt,
     mkStore (meshes s) (materials s) (textures s)
             (<[l := mkMaterialData (material e) t]> (heap s))
             (set_bumpTexture h (bumpTexture td)
                (set_diffuseTexture h (diffuseTexture td) (engine s)))).
Proof.
  intros Hm Hh Ht Hl He. unfold setTexture, bind, gets, defined; simpl.
  rewrite Ht, Hm; simpl. rewrite Hh; simpl. rewrite Hl; simpl. rewrite He. reflexivity.
Qed.

(** Nothing has been written yet when the mesh entry, its renderable
    material or the texture entry is missing. *)
Lemma setTexture_throws_early m t s :
  index (meshes s) m = None
  ∨ (∃ md, index (meshes s) m = Some md ∧ meshMaterial (engine s) !! mesh md = None)
  ∨ index (textures s) t = None →
  setTexture m t s = (inl TypeError, s).
Proof.
  unfold setTexture, bind, gets, defined; simpl.
  intros [Hm | [(md & Hm & Hh) | Ht]].
  - rewrite Hm. reflexivity.
  - rewrite Hm; simpl. rewrite Hh. reflexivity.
  - rewrite Ht. destruct (index (meshes s) m) as [md |]; [| reflexivity]. simpl.
    destruct (meshMaterial (engine s) !! mesh md); reflexivity.
Qed.

(** The third statement throws after the first two have run. *)
Lemma setTexture_throws_late m t s md h td :
  index (meshes s) m = Some md →
  meshMaterial (engine s) !! mesh md = Some h →
  index (textures s) t = Some td →
  materialData md ≫= (fun l => heap s !! l) = None →
  setTexture m t s =
    (inl TypeError,
     with_engine (fun e => set_bumpTexture h (bumpTexture td)
                             (set_diffuseTexture h (diffuseTexture td) e)) s).
Proof.
  intros Hm Hh Ht Hl. unfold setTexture, bind, gets, defined; simpl.
  rewrite Ht, Hm; simpl. rewrite Hh; simpl.
  destruct (materialData md) as [l |]; [| reflexivity]. simpl in *.
  rewrite Hl. reflexivity.
Qed.

Lemma haveSameMaterial_returns a b s d1 d2 :
  index (meshes s) a = Some d1 →
  index (meshes s) b = Some d2 →
  haveSameMaterial a b s = (inr (bool_decide (materialData d1 = materialData d2)), s).
Proof.
  intros Ha Hb. unfold haveSameMaterial, bind, gets, defined; simpl.
  rewrite Ha; simpl. rewrite Hb. reflexivity.
Qed.

Lemma haveSameMaterial_throws a b s :
  index (meshes s) a = None ∨ index (meshes s) b = None →
  haveSameMaterial a b s = (inl TypeError, s).
Proof.
  unfold haveSameMaterial, bind, gets, defined; simpl.
  intros [Ha | Hb].
  - rewrite Ha. reflexivity.
  - destruct (index (meshes s) a); [| reflexivity]. simpl. rewrite Hb. reflexivity.
Qed.

Lemma setMaterial_cases m i s :
  (∃ md l e,
      index (meshes s) m = Some md ∧ index (materials s) i = Some l ∧ heap s !! l = Some e ∧
      setMaterial m i s =
        (inr (textureIndex e),
         mkStore (<[Z.to_nat m := mkMeshData (mesh md) (Some l)]> (meshes s))
                 (materials s) (textures s) (heap s)
                 (set_meshMaterial (mesh md) (material e) (engine s))))
  ∨ setMaterial m i s = (inl TypeError, s).
Proof.
  destruct (index (meshes s) m) as [md |] eqn:Hm;
    [| right; apply setMaterial_throws; by left].
  destruct (materialAt s i) as [e |] eqn:Hi;
    [| right; apply setMaterial_throws; by right].
  unfold materialAt in Hi.
  destruct (index (materials s) i) as [l |] eqn:Hl; [| discriminate]. simpl in Hi.
  left. exists md, l, e. eauto using setMaterial_returns.
Qed.

Lemma setTexture_cases m t s :
  (∃ md h td l e,
      index (meshes s) m = Some md ∧ meshMaterial (engine s) !! mesh md = Some h ∧
      index (textures s) t = Some td ∧ materialData md = Some l ∧ heap s !! l = Some e ∧
      setTexture m t s =
        (inr tt,
         mkStore (meshes s) (materials s) (textures s)
                 (<[l := mkMaterialData (material e) t]> (heap s))
                 (set_bumpTexture h (bumpTexture td)
                    (set_diffuseTexture h (diffuseTexture td) (engine s)))))
  ∨ (∃ e', setTexture m t s = (inl TypeError, with_engine (fun _ => e') s)).
Proof.
  destruct (index (meshes s) m) as [md |] eqn:Hm; cycle 1.
  { right. exists (engine s). rewrite setTexture_throws_early by by left. by destruct s. }
  destruct (meshMaterial (engine s) !! mesh md) as [h |] eqn:Hh; cycle 1.
  { right. exists (engine s). rewrite setTexture_throws_early by (right; left; eauto).
    by destruct s. }
  destruct (index (textures s) t) as [td |] eqn:Ht; cycle 1.
  { right. exists (engine s). rewrite setTexture_throws_early by (by right; right).
    by destruct s. }
  destruct (materialData md ≫= (fun l => heap s !! l)) as [e |] eqn:Hl.
  - left. destruct (materialData md) as [l |] eqn:Hd; [| discriminate]. simpl in Hl.
    exists md, h, td, l, e. eauto 10 using setTexture_returns.
  - right. eexists. by erewrite setTexture_throws_late.
Qed.

Lemma haveSameMaterial_store a b s : (haveSameMaterial a b s).2 = s.
Proof.
  destruct (index (meshes s) a) as [d1 |] eqn:Ha;
    [| by rewrite haveSameMaterial_throws by by left].
  destruct (index (meshes s) b) as [d2 |] eqn:Hb;
    [| by rewrite haveSameMaterial_throws by by right].
  by erewrite haveSameMaterial_returns.
Qed.

(** ** Well-formedness is an invariant *)

Lemma wf_newConfigurator e : wf (newConfigurator e).
Proof.
  split; simpl.
  - constructor.
  - intros l Hl. by apply elem_of_nil in Hl.
  - intros md l Hmd. by apply elem_of_nil in Hmd.
Qed.

Lemma wf_index_materials s i l : wf s → index (materials s) i = Some l → is_Some (heap s !! l).
Proof. intros Hwf Hi. eapply wf_materials, index_elem_of; eauto. Qed.

(** In a well-formed store, a registered mesh index and an in-bounds
    material index resolve to a mesh entry and a material entry. *)
Lemma wf_resolve s m i :
  wf s → in_range (meshes s) m → in_range (materials s) i →
  ∃ md l e,
    index (meshes s) m = Some md ∧ index (materials s) i = Some l ∧ heap s !! l = Some e.
Proof.
  intros Hwf [md Hm]%index_is_Some [l Hi]%index_is_Some.
  destruct (wf_index_materials s i l Hwf Hi) as [e He]. eauto 6.
Qed.

Lemma wf_addMesh mesh i s : wf s → wf (addMesh mesh i s).2.
Proof.
  intros [Hnd Hmat Hmesh]. rewrite addMesh_eq. split; simpl; [done | done |].
  intros md l [Hmd | Hmd]%elem_of_app Hl; [by eapply Hmesh |].
  apply list_elem_of_singleton in Hmd as ->. simpl in Hl.
  destruct i as [i |]; [| discriminate]. simpl in Hl.
  eapply Hmat, index_elem_of; eauto.
Qed.

Lemma fresh_not_in_materials s : wf s → fresh (dom (heap s)) ∉ materials s.
Proof.
  intros Hwf Hin. apply (wf_materials _ Hwf) in Hin.
  apply elem_of_dom in Hin. by apply is_fresh in Hin.
Qed.

Lemma wf_addMaterial m t s : wf s → wf (addMaterial m t s).2.
Proof.
  intros Hwf. pose proof (fresh_not_in_materials s Hwf) as Hfresh.
  destruct Hwf as [Hnd Hmat Hmesh]. rewrite addMaterial_eq. split; simpl.
  - apply NoDup_app. split; [done |]. split; [| apply NoDup_singleton].
    intros x Hx ->%list_elem_of_singleton. done.
  - intros l [Hl | ->%list_elem_of_singleton]%elem_of_app.
    + apply lookup_insert_is_Some'. right. by apply Hmat.
    + rewrite lookup_insert_eq. eauto.
  - intros md l Hmd Hl. apply lookup_insert_is_Some'. right. by eapply Hmesh.
Qed.

Lemma wf_addTexture n d b s : wf s → wf (addTexture n d b s).2.
Proof. intros [? ? ?]. rewrite addTexture_eq. by split. Qed.

Lemma wf_setMaterial m i s : wf s → wf (setMaterial m i s).2.
Proof.
  intros Hwf. destruct (setMaterial_cases m i s) as [(md & l & e & Hm & Hi & He & ->) | ->];
    [| done].
  destruct Hwf as [Hnd Hmat Hmesh]. split; simpl; [done | done |].
  intros md' l' [k Hk]%list_elem_of_lookup Hl'.
  apply list_lookup_insert_Some in Hk as [(_ & <- & _) | (_ & Hk)].
  - simpl in Hl'. injection Hl' as <-. eauto.
  - eapply Hmesh; [by eapply list_elem_of_lookup_2 | done].
Qed.

Lemma wf_setTexture m t s : wf s → wf (setTexture m t s).2.
Proof.
  intros [Hnd Hmat Hmesh].
  destruct (setTexture_cases m t s)
    as [(md & h & td & l & e & Hm & Hh & Ht & Hl & He & ->) | [e' ->]]; [| by split].
  split; simpl; [done | |].
  - intros l' Hl'. apply lookup_insert_is_Some'. right. by apply Hmat.
  - intros md' l' Hmd' Hl'. apply lookup_insert_is_Some'. right. by eapply Hmesh.
Qed.

Lemma wf_call c s : wf s → wf (call c s).
Proof.
  destruct c; cbn [call];
    auto using wf_addMesh, wf_addMaterial, wf_addTexture, wf_setMaterial, wf_setTexture.
  by rewrite haveSameMaterial_store.
Qed.

Lemma run_snoc cs c s : run (cs ++ [c]) s = call c (run cs s).
Proof. unfold run. by rewrite foldl_snoc. Qed.

Lemma run_cons c cs s : run (c :: cs) s = run cs (call c s).
Proof. reflexivity. Qed.

Lemma wf_run cs s : wf s → wf (run cs s).
Proof.
  revert s. induction cs as [| c cs IH]; intros s Hwf; [done |].
  rewrite run_cons. by apply IH, wf_call.
Qed.

(** ** What a call leaves alone *)

Lemma call_materials c s : ∃ new, materials (call c s) = materials s ++ new.
Proof.
  destruct c as [mesh i | m t | n d b | m i | m t | a b]; cbn [call].
  - exists []. by rewrite app_nil_r.
  - eexists. rewrite addMaterial_eq. reflexivity.
  - exists []. by rewrite app_nil_r.
  - exists []. rewrite app_nil_r.
    by destruct (setMaterial_cases m i s) as [(? & ? & ? & _ & _ & _ & ->) | ->].
  - exists []. rewrite app_nil_r.
    by destruct (setTexture_cases m t s)
      as [(? & ? & ? & ? & ? & _ & _ & _ & _ & _ & ->) | [? ->]].
  - exists []. by rewrite app_nil_r, haveSameMaterial_store.
Qed.

Lemma call_textures c s : ∃ new, textures (call c s) = textures s ++ new.
Proof.
  destruct c as [mesh i | m t | n d b | m i | m t | a b]; cbn [call].
  - exists []. by rewrite app_nil_r.
  - exists []. by rewrite app_nil_r.
  - eexists. rewrite addTexture_eq. reflexivity.
  - exists []. rewrite app_nil_r.
    by destruct (setMaterial_cases m i s) as [(? & ? & ? & _ & _ & _ & ->) | ->].
  - exists []. rewrite app_nil_r.
    by destruct (setTexture_cases m t s)
      as [(? & ? & ? & ? & ? & _ & _ & _ & _ & _ & ->) | [? ->]].
  - exists []. by rewrite app_nil_r, haveSameMaterial_store.
Qed.

Lemma call_index_materials c s k l :
  index (materials s) k = Some l → index (materials (call c s)) k = Some l.
Proof. intros. destruct (call_materials c s) as [new ->]. by apply index_app_l. Qed.

Lemma call_heap c s l e :
  is_setTexture c = false → heap s !! l = Some e → heap (call c s) !! l = Some e.
Proof.
  intros Hc Hl. destruct c as [mesh i | m t | n d b | m i | m t | a b];
    cbn [call]; try discriminate.
  - done.
  - rewrite addMaterial_eq. simpl. rewrite lookup_insert_ne; [done |].
    intros Heq. apply (is_fresh (dom (heap s))). rewrite Heq. by apply elem_of_dom.
  - done.
  - by destruct (setMaterial_cases m i s) as [(? & ? & ? & _ & _ & _ & ->) | ->].
  - by rewrite haveSameMaterial_store.
Qed.

Lemma call_materialAt c s k e :
  is_setTexture c = false → materialAt s k = Some e → materialAt (call c s) k = Some e.
Proof.
  unfold materialAt. intros Hc Hk.
  destruct (index (materials s) k) as [l |] eqn:Hl; [| discriminate]. simpl in Hk.
  erewrite call_index_materials by done. simpl. by apply call_heap.
Qed.

Lemma run_materialAt cs s k e :
  Forall (fun c => is_setTexture c = false) cs →
  materialAt s k = Some e → materialAt (run cs s) k = Some e.
Proof.
  intros Hcs. revert s. induction Hcs as [| c cs Hc _ IH]; intros s Hk; [done |].
  rewrite run_cons. by apply IH, call_materialAt.
Qed.

Lemma call_index_meshes c s a md :
  reassigns a c = false →
  index (meshes s) a = Some md → index (meshes (call c s)) a = Some md.
Proof.
  intros Hc Ha. destruct c as [mesh i | m t | n d b | m i | m t | x y]; cbn [call].
  - rewrite addMesh_eq. by apply index_app_l.
  - done.
  - done.
  - destruct (setMaterial_cases m i s) as [(? & ? & ? & Hm & _ & _ & ->) | ->]; [| done].
    simpl in *. apply bool_decide_eq_false in Hc.
    rewrite index_insert_ne; [done | | done]. by apply index_Some in Hm as [? _].
  - by destruct (setTexture_cases m t s)
      as [(? & ? & ? & ? & ? & _ & _ & _ & _ & _ & ->) | [? ->]].
  - by rewrite haveSameMaterial_store.
Qed.

Lemma run_index_meshes cs s a md :
  Forall (fun c => reassigns a c = false) cs →
  index (meshes s) a = Some md → index (meshes (run cs s)) a = Some md.
Proof.
  intros Hcs. revert s. induction Hcs as [| c cs Hc _ IH]; intros s Ha; [done |].
  rewrite run_cons. by apply IH, call_index_meshes.
Qed.

Lemma wf_page : wf page.
Proof. apply wf_run, wf_newConfigurator. Qed.

(** ** setMaterial *)

(** C3: for a registered mesh index [m] and an in-bounds material index [i],
    [setMaterial(m, i)] makes the mesh entry refer to the material entry at
    index [i], assigns that entry's renderable material to the [material]
    property of the renderable mesh, and returns the texture index stored on
    that material entry (which the call leaves as it was). *)
Theorem setMaterial_reassigns s m i :
  wf s → in_range (meshes s) m → in_range (materials s) i →
  ∃ md l e s',
    index (meshes s) m = Some md ∧
    index (materials s) i = Some l ∧
    heap s !! l = Some e ∧
    setMaterial m i s = (inr (textureIndex e), s') ∧
    index (meshes s') m = Some (mkMeshData (mesh md) (Some l)) ∧
    meshMaterial (engine s') !! mesh md = Some (material e) ∧
    materialAt s' i = Some e.
Proof.
  intros Hwf Hm Hi.
  destruct (wf_resolve s m i Hwf Hm Hi) as (md & l & e & Hmd & Hl & He).
  exists md, l, e. eexists. repeat split; try done.
  - by apply setMaterial_returns.
  - simpl. by apply index_insert_eq.
  - simpl. apply lookup_insert_eq.
  - unfold materialAt. simpl. by rewrite Hl.
Qed.

Lemma setMaterial_reassigns_witness :
  wf page ∧ in_range (meshes page) 1 ∧ in_range (materials page) 1 ∧
  ∃ md l e s',
    index (meshes page) 1 = Some md ∧
    index (materials page) 1 = Some l ∧
    heap page !! l = Some e ∧
    setMaterial 1 1 page = (inr (textureIndex e), s') ∧
    index (meshes s') 1 = Some (mkMeshData (mesh md) (Some l)) ∧
    meshMaterial (engine s') !! mesh md = Some (material e) ∧
    materialAt s' 1 = Some e.
Proof.
  assert (Hm : in_range (meshes page) 1) by in_range_tac.
  assert (Hi : in_range (materials page) 1) by in_range_tac.
  split; [apply wf_page |]. split; [exact Hm |]. split; [exact Hi |].
  exact (setMaterial_reassigns page 1 1 wf_page Hm Hi).
Defined.

(** ** setTexture *)

(** C4, as stated, fails.  On the page, mesh 0 is registered, its mesh entry
    refers to the material entry at index 0 and texture index 1 is in bounds,
    but its renderable mesh has no material: [setTexture(0, 1)] throws and the
    material entry still remembers 0.  And where a renderable mesh has a
    material but its mesh entry none (mesh 1 of the loaded page), the call
    throws as well, there being no material entry to store on. *)
Lemma setTexture_without_material_throws :
  in_range (meshes page) 0 ∧ in_range (textures page) 1 ∧
  materialOf page 0 = Some (mkMaterialData 7%nat 0) ∧
  (setTexture 0 1 page).1 = inl TypeError ∧
  textureIndex <$> materialOf (setTexture 0 1 page).2 0 = Some 0 ∧
  textureIndex <$> materialOf (setTexture 0 1 page).2 0 ≠ Some 1 ∧
  in_range (meshes loaded_page) 1 ∧ in_range (textures loaded_page) 1 ∧
  (setTexture 1 1 loaded_page).1 = inl TypeError ∧
  materialOf (setTexture 1 1 loaded_page).2 1 = None.
Proof.
  split; [in_range_tac |]. split; [in_range_tac |].
  split; [vm_compute; reflexivity |]. split; [vm_compute; reflexivity |].
  split; [vm_compute; reflexivity |]. split; [vm_compute; discriminate |].
  split; [in_range_tac |]. split; [in_range_tac |].
  split; vm_compute; reflexivity.
Qed.

(** C4, amended: for a registered mesh index [m] whose renderable mesh has a
    renderable material [h] attached, and an in-bounds texture index [t],
    [setTexture(m, t)] assigns the texture entry's diffuse and bump handles to
    [h]; and if mesh entry [m] refers to a material entry [l], the call
    returns and has stored [t] as the texture index of [l], the entry's
    material handle being kept. *)
Theorem setTexture_applies s m t md h :
  wf s → index (meshes s) m = Some md → in_range (textures s) t →
  meshMaterial (engine s) !! mesh md = Some h →
  ∃ td,
    index (textures s) t = Some td ∧
    materialDiffuse (engine (setTexture m t s).2) !! h = diffuseTexture td ∧
    materialBump (engine (setTexture m t s).2) !! h = bumpTexture td ∧
    ∀ l, materialData md = Some l →
      ∃ e, heap s !! l = Some e ∧
           (setTexture m t s).1 = inr tt ∧
           heap (setTexture m t s).2 !! l = Some (mkMaterialData (material e) t).
Proof.
  intros Hwf Hm [td Ht]%index_is_Some Hh. exists td. split; [done |].
  destruct (materialData md ≫= (fun l => heap s !! l)) as [e |] eqn:Hl.
  - destruct (materialData md) as [l |] eqn:Hd; [| discriminate]. simpl in Hl.
    erewrite setTexture_returns by done. simpl.
    split; [apply assign_lookup_eq |]. split; [apply assign_lookup_eq |].
    intros ? [= <-]. exists e. by rewrite lookup_insert_eq.
  - erewrite setTexture_throws_late by done. simpl.
    split; [apply assign_lookup_eq |]. split; [apply assign_lookup_eq |].
    intros l Hd.
    destruct (wf_meshes s Hwf md l (index_elem_of _ _ _ Hm) Hd) as [e He].
    rewrite Hd in Hl. simpl in Hl. congruence.
Qed.

Lemma setTexture_applies_witness :
  wf page1 ∧ index (meshes page1) 0 = Some (mkMeshData 1%nat (Some 1%nat)) ∧
  in_range (textures page1) 1 ∧
  meshMaterial (engine page1) !! 1%nat = Some 8%nat ∧
  materialDiffuse (engine (setTexture 0 1 page1).2) !! 8%nat = Some 3%nat ∧
  materialBump (engine (setTexture 0 1 page1).2) !! 8%nat = Some 4%nat ∧
  (setTexture 0 1 page1).1 = inr tt ∧
  textureIndex <$> heap (setTexture 0 1 page1).2 !! 1%nat = Some 1.
Proof.
  assert (Hwf : wf page1) by apply wf_call, wf_page.
  assert (Hm : index (meshes page1) 0 = Some (mkMeshData 1%nat (Some 1%nat)))
    by (vm_compute; reflexivity).
  assert (Ht : in_range (textures page1) 1) by in_range_tac.
  assert (Hh : meshMaterial (engine page1) !! 1%nat = Some 8%nat)
    by (vm_compute; reflexivity).
  split; [exact Hwf |]. split; [exact Hm |]. split; [exact Ht |]. split; [exact Hh |].
  destruct (setTexture_applies page1 0 1 _ 8%nat Hwf Hm Ht Hh)
    as (td & Htd & Hd & Hb & Hl).
  destruct (Hl 1%nat eq_refl) as (e & He & Hr & Hs).
  assert (td = mkTextureData "Rock" (Some 3%nat) (Some 4%nat)) as ->.
  { assert (Htd' : index (textures page1) 1
                   = Some (mkTextureData "Rock" (Some 3%nat) (Some 4%nat)))
      by (vm_compute; reflexivity).
    congruence. }
  split; [exact Hd |]. split; [exact Hb |]. split; [exact Hr |].
  exact (f_equal (fmap textureIndex) Hs).
Defined.

Lemma remembered_call i t c s :
  (∃ e, materialAt s i = Some e ∧ textureIndex e = t) →
  ¬ overwrites i t c s →
  ∃ e, materialAt (call c s) i = Some e ∧ textureIndex e = t.
Proof.
  intros (e & He & Ht) Hc.
  destruct (is_setTexture c) eqn:Hst; [| exists e; split; [by apply call_materialAt | done]].
  destruct c as [| | | | m t' |]; try discriminate. cbn [call overwrites] in *.
  destruct (setTexture_cases m t' s)
    as [(md & h & td & l & e0 & Hm & Hh & Htd & Hl & He0 & Heq) | [e' Heq]];
    rewrite Heq; [| by exists e].
  unfold materialAt in *. simpl.
  destruct (index (materials s) i) as [li |] eqn:Hi; [| discriminate]. simpl in *.
  destruct (decide (l = li)) as [-> | Hne].
  - rewrite lookup_insert_eq. eexists. split; [done |]. simpl.
    destruct (decide (t' = t)) as [| Hne]; [done |]. exfalso. apply Hc.
    split; [done |]. split; [by exists md, li |]. by rewrite Heq.
  - rewrite lookup_insert_ne by done. by exists e.
Qed.

Lemma remembered_run i t cs s :
  (∃ e, materialAt s i = Some e ∧ textureIndex e = t) →
  never_overwritten i t cs s →
  ∃ e, materialAt (run cs s) i = Some e ∧ textureIndex e = t.
Proof.
  revert s. induction cs as [| c cs IH]; intros s He Hcs; [done |].
  destruct Hcs as [Hc Hcs]. rewrite run_cons. apply IH; [| done].
  by apply remembered_call.
Qed.

(** C1, as stated, fails: after [setMaterial(0, 1)] and [setTexture(0, 1)] on
    the page, both returning, a later [setTexture(0, 0)] makes the subsequent
    [setMaterial(1, 1)] return 0, not 1. *)
Lemma setTexture_later_overwrites :
  in_range (meshes page) 0 ∧ in_range (materials page) 1 ∧ in_range (textures page) 1 ∧
  (setMaterial 0 1 page).1 = inr 0 ∧
  (setTexture 0 1 (setMaterial 0 1 page).2).1 = inr tt ∧
  (setMaterial 1 1 (run [SetMaterial 0 1; SetTexture 0 1; SetTexture 0 0] page)).1 = inr 0 ∧
  (setMaterial 1 1 (run [SetMaterial 0 1; SetTexture 0 1; SetTexture 0 0] page)).1 ≠ inr 1.
Proof.
  split; [in_range_tac |]. split; [in_range_tac |]. split; [in_range_tac |].
  vm_compute. repeat split; discriminate.
Qed.

(** C1, amended: [setMaterial(m, i)] followed at once by [setTexture(m, t)],
    all three indices valid: both calls return, and from then on, across any
    later calls of which none is a [setTexture] that returns with another
    texture index on a mesh whose entry refers to the material entry at index
    [i], every [setMaterial(m', i)] on a registered mesh [m'] returns [t],
    and every mesh entry that refers to the material entry at index [i] finds
    texture index [t] on it. *)
Theorem setMaterial_setTexture_remembered_until s m i t :
  wf s → in_range (meshes s) m → in_range (materials s) i → in_range (textures s) t →
  ∃ r s1 s2,
    setMaterial m i s = (inr r, s1) ∧
    setTexture m t s1 = (inr tt, s2) ∧
    ∀ cs, never_overwritten i t cs s2 →
      (∀ m', in_range (meshes (run cs s2)) m' →
             (setMaterial m' i (run cs s2)).1 = inr t) ∧
      (∀ m' md', index (meshes (run cs s2)) m' = Some md' →
                 materialData md' = index (materials (run cs s2)) i →
                 textureIndex <$> materialOf (run cs s2) m' = Some t).
Proof.
  intros Hwf Hm Hi Ht.
  destruct (wf_resolve s m i Hwf Hm Hi) as (md & l & e & Hmd & Hl & He).
  pose proof (setMaterial_returns m i s md l e Hmd Hl He) as Hset.
  set (s1 := mkStore (<[Z.to_nat m := mkMeshData (mesh md) (Some l)]> (meshes s))
                     (materials s) (textures s) (heap s)
                     (set_meshMaterial (mesh md) (material e) (engine s))) in *.
  assert (Hmd1 : index (meshes s1) m = Some (mkMeshData (mesh md) (Some l)))
    by (by apply index_insert_eq).
  assert (Hh1 : meshMaterial (engine s1) !! mesh md = Some (material e))
    by apply lookup_insert_eq.
  apply index_is_Some in Ht as [td Htd].
  pose proof (setTexture_returns m t s1 _ _ td l e Hmd1 Hh1 Htd eq_refl He) as Htex.
  eexists (textureIndex e), s1, _. split; [done |]. split; [exact Htex |].
  match goal with |- ∀ cs, _ → (∀ m', in_range (meshes (run cs ?s)) _ → _) ∧ _ =>
    set (s2 := s) end.
  assert (Hat2 : ∃ x, materialAt s2 i = Some x ∧ textureIndex x = t).
  { eexists. unfold materialAt, s2. simpl. rewrite Hl. simpl.
    rewrite lookup_insert_eq. done. }
  intros cs Hcs. destruct (remembered_run i t cs s2 Hat2 Hcs) as (x & Hat3 & Hx).
  unfold materialAt in Hat3.
  destruct (index (materials (run cs s2)) i) as [l3 |] eqn:Hl3; [| discriminate].
  simpl in Hat3. split.
  - intros m' [md' Hm']%index_is_Some.
    erewrite setMaterial_returns by done. simpl. by rewrite Hx.
  - intros m' md' Hm' Hd. unfold materialOf. rewrite Hm'. simpl. rewrite Hd. simpl.
    rewrite Hat3. simpl. by rewrite Hx.
Qed.

Lemma setMaterial_setTexture_remembered_until_witness :
  wf page ∧ in_range (meshes page) 0 ∧ in_range (materials page) 1 ∧
  in_range (textures page) 1 ∧
  never_overwritten 1 1 [SetMaterial 1 0; SetTexture 1 0; HaveSameMaterial 0 1]
                    (run [SetMaterial 0 1; SetTexture 0 1] page) ∧
  (setMaterial 1 1 (run [SetMaterial 1 0; SetTexture 1 0; HaveSameMaterial 0 1]
                        (run [SetMaterial 0 1; SetTexture 0 1] page))).1 = inr 1.
Proof.
  assert (Hm : in_range (meshes page) 0) by in_range_tac.
  assert (Hi : in_range (materials page) 1) by in_range_tac.
  assert (Ht : in_range (textures page) 1) by in_range_tac.
  assert (Hcs : never_overwritten 1 1 [SetMaterial 1 0; SetTexture 1 0; HaveSameMaterial 0 1]
                  (run [SetMaterial 0 1; SetTexture 0 1] page)).
  { split; [intros [] |]. split; [| split; [intros [] | exact I]].
    intros (_ & (md & l & Hmd & Hl & Hidx) & _).
    vm_compute in Hmd. injection Hmd as <-. vm_compute in Hl. injection Hl as <-.
    vm_compute in Hidx. discriminate. }
  split; [exact wf_page |]. split; [exact Hm |]. split; [exact Hi |]. split; [exact Ht |].
  split; [exact Hcs |].
  destruct (setMaterial_setTexture_remembered_until page 0 1 1 wf_page Hm Hi Ht)
    as (r & s1 & s2 & Hset & Htex & Hlater).
  assert (s2 = run [SetMaterial 0 1; SetTexture 0 1] page) as ->.
  { unfold run. cbn [foldl call]. rewrite Hset. cbn [snd]. by rewrite Htex. }
  apply (proj1 (Hlater _ Hcs) 1). in_range_tac.
Defined.

(** ** Who writes a material entry *)

(** C10: [setMaterial] writes no material entry, whatever its arguments: the
    heap of material entries and [#materials] are the same after the call.
    More generally every call other than [setTexture] leaves each existing
    material entry, texture index included, as it was. *)
Theorem setMaterial_keeps_textureIndex :
  (∀ s m i, heap (setMaterial m i s).2 = heap s ∧
            materials (setMaterial m i s).2 = materials s) ∧
  (∀ c s l e, is_setTexture c = false →
              heap s !! l = Some e → heap (call c s) !! l = Some e).
Proof.
  split.
  - intros s m i.
    by destruct (setMaterial_cases m i s) as [(? & ? & ? & _ & _ & _ & ->) | ->].
  - apply call_heap.
Qed.

Lemma setMaterial_keeps_textureIndex_witness :
  is_setTexture (AddMaterial 9%nat (Some 1)) = false ∧
  heap page !! 0%nat = Some (mkMaterialData 7%nat 0) ∧
  heap (call (AddMaterial 9%nat (Some 1)) page) !! 0%nat = Some (mkMaterialData 7%nat 0).
Proof.
  assert (H : heap page !! 0%nat = Some (mkMaterialData 7%nat 0)) by (vm_compute; reflexivity).
  split; [reflexivity |]. split; [exact H |].
  exact (proj2 setMaterial_keeps_textureIndex (AddMaterial 9%nat (Some 1)) page _ _ eq_refl H).
Defined.

(** ** addMesh *)

Lemma addMesh_entry mesh i s :
  index (meshes (addMesh mesh i s).2) (Z.of_nat (length (meshes s)))
  = Some (mkMeshData mesh (index_opt (materials s) i)).
Proof. rewrite addMesh_eq. apply index_snoc_length. Qed.

(** With an in-bounds index the new entry refers to the material entry at
    that index. *)
Lemma addMesh_reference mesh i s l :
  index (materials s) i = Some l →
  materialData <$> index (meshes (addMesh mesh (Some i) s).2) (Z.of_nat (length (meshes s)))
  = Some (Some l).
Proof. intros Hi. rewrite addMesh_entry. simpl. by rewrite Hi. Qed.

(** Without an index the new entry has no material. *)
Lemma addMesh_no_index mesh s :
  materialData <$> index (meshes (addMesh mesh None s).2) (Z.of_nat (length (meshes s)))
  = Some None.
Proof. by rewrite addMesh_entry. Qed.

(** No engine object is written by [addMesh]. *)
Lemma addMesh_engine mesh i s : engine (addMesh mesh i s).2 = engine s.
Proof. reflexivity. Qed.

(** C5: [addMesh(mesh, 0)] on a configurator with one material (handle 7),
    for a renderable mesh (handle 1) that has no material: the call returns,
    the new mesh entry refers to the material entry at index 0, but the
    [material] property of the renderable mesh is still unset, where
    [setMaterial(0, 0)] would set it to 7. *)
Theorem addMesh_leaves_renderable_mesh :
  let s := call (AddMaterial 7%nat None) (newConfigurator blank) in
  in_range (materials s) 0 ∧
  (addMesh 1%nat (Some 0) s).1 = inr tt ∧
  materialOf (addMesh 1%nat (Some 0) s).2 0 = Some (mkMaterialData 7%nat 0) ∧
  meshMaterial (engine (addMesh 1%nat (Some 0) s).2) !! 1%nat = None ∧
  meshMaterial (engine (run [AddMesh 1%nat (Some 0); SetMaterial 0 0] s)) !! 1%nat
  = Some 7%nat.
Proof. split; [in_range_tac |]. vm_compute. done. Qed.

(** ** haveSameMaterial *)

(** C9: two meshes registered by [addMesh] without a material index, at
    indices [a] and [b], and never passed to [setMaterial] afterwards
    (whatever else is called in between and after): [haveSameMaterial(a, b)]
    returns [true]. *)
Theorem haveSameMaterial_unassigned s mesh1 mesh2 cs1 cs2 :
  let a := Z.of_nat (length (meshes s)) in
  let s1 := run cs1 (call (AddMesh mesh1 None) s) in
  let b := Z.of_nat (length (meshes s1)) in
  let s2 := run cs2 (call (AddMesh mesh2 None) s1) in
  Forall (fun c => reassigns a c = false) cs1 →
  Forall (fun c => reassigns a c = false ∧ reassigns b c = false) cs2 →
  haveSameMaterial a b s2 = (inr true, s2).
Proof.
  intros a s1 b s2 H1 H2.
  assert (Ha : index (meshes s2) a = Some (mkMeshData mesh1 None)).
  { apply run_index_meshes; [eapply Forall_impl; [exact H2 | by intros ? [? _]] |].
    apply call_index_meshes; [done |].
    apply run_index_meshes; [done |]. apply (addMesh_entry mesh1 None s). }
  assert (Hb : index (meshes s2) b = Some (mkMeshData mesh2 None)).
  { apply run_index_meshes; [eapply Forall_impl; [exact H2 | by intros ? [_ ?]] |].
    apply (addMesh_entry mesh2 None s1). }
  by rewrite (haveSameMaterial_returns a b s2 _ _ Ha Hb).
Qed.

Lemma haveSameMaterial_unassigned_witness :
  let cs1 := [SetMaterial 0 1; AddTexture "Wood" None None] in
  let cs2 := [SetTexture 0 1; SetMaterial 1 0] in
  Forall (fun c => reassigns 2 c = false) cs1 ∧
  Forall (fun c => reassigns 2 c = false ∧ reassigns 3 c = false) cs2 ∧
  haveSameMaterial 2 3
    (run cs2 (call (AddMesh 6%nat None) (run cs1 (call (AddMesh 5%nat None) page))))
  = (inr true,
     run cs2 (call (AddMesh 6%nat None) (run cs1 (call (AddMesh 5%nat None) page)))).
Proof.
  intros cs1 cs2.
  assert (H1 : Forall (fun c => reassigns 2 c = false) cs1)
    by (repeat constructor).
  assert (H2 : Forall (fun c => reassigns 2 c = false ∧ reassigns 3 c = false) cs2)
    by (repeat constructor).
  split; [exact H1 |]. split; [exact H2 |].
  exact (haveSameMaterial_unassigned page 5%nat 6%nat cs1 cs2 H1 H2).
Defined.

(** ** The sentinel texture *)

(** C7: [#textures[0]] is the entry named "None" with both handles null in a
    new configurator, stays so across every call (each of the methods,
    returning or throwing), and so is there in every reachable store. *)
Theorem sentinel_invariant :
  (∀ e, has_sentinel (newConfigurator e)) ∧
  (∀ c s, has_sentinel s → has_sentinel (call c s)) ∧
  (∀ e cs, has_sentinel (run cs (newConfigurator e))).
Proof.
  assert (Hstep : ∀ c s, has_sentinel s → has_sentinel (call c s)).
  { unfold has_sentinel. intros c s Hs.
    destruct (call_textures c s) as [new ->]. by apply index_app_l. }
  split; [done |]. split; [done |].
  intros e cs. induction cs as [| c cs IH] using rev_ind; [done |].
  rewrite run_snoc. by apply Hstep.
Qed.

Lemma sentinel_invariant_witness :
  has_sentinel page ∧ has_sentinel (call (AddTexture "Stones" (Some 1%nat) (Some 2%nat)) page).
Proof.
  assert (H : has_sentinel page) by apply (proj2 (proj2 sentinel_invariant)).
  split; [exact H |].
  exact (proj1 (proj2 sentinel_invariant) _ page H).
Defined.

(** ** addMaterial *)

Lemma addMaterial_entry m t s :
  materialAt (addMaterial m t s).2 (Z.of_nat (length (materials s)))
  = Some (mkMaterialData m (default 0 t)).
Proof.
  rewrite addMaterial_eq. unfold materialAt. simpl.
  rewrite index_snoc_length. simpl. apply lookup_insert_eq.
Qed.

(** C8, as stated, fails: [addMaterial(material, 2)] creates an entry whose
    texture index is 2. *)
Lemma addMaterial_explicit_textureIndex :
  textureIndex <$> materialAt (call (AddMaterial 7%nat (Some 2)) (newConfigurator blank)) 0
  = Some 2 ∧
  textureIndex <$> materialAt (call (AddMaterial 7%nat (Some 2)) (newConfigurator blank)) 0
  ≠ Some 0.
Proof. split; [vm_compute; reflexivity | vm_compute; discriminate]. Qed.

(** C8, amended: a call of [addMaterial] that passes no texture index appends
    an entry whose texture index is 0, a call that passes one appends an
    entry with that index, and after any sequence of calls that pass none,
    the entry appended by the [k]-th call has texture index 0. *)
Theorem addMaterial_default_textureIndex :
  (∀ s m, materialAt (addMaterial m None s).2 (Z.of_nat (length (materials s)))
          = Some (mkMaterialData m 0)) ∧
  (∀ s m t, materialAt (addMaterial m (Some t) s).2 (Z.of_nat (length (materials s)))
            = Some (mkMaterialData m t)) ∧
  (∀ ms s k m, ms !! k = Some m →
     materialAt (run ((fun m => AddMaterial m None) <$> ms) s)
                (Z.of_nat (length (materials s) + k))
     = Some (mkMaterialData m 0)).
Proof.
  split; [intros; apply addMaterial_entry |]. split; [intros; apply addMaterial_entry |].
  induction ms as [| m0 ms IH]; intros s k m Hk; [done |].
  rewrite fmap_cons, run_cons. destruct k as [| k]; simpl in Hk.
  - injection Hk as ->. rewrite Nat.add_0_r. apply run_materialAt.
    + apply Forall_fmap, Forall_forall. done.
    + apply (addMaterial_entry m None s).
  - specialize (IH (call (AddMaterial m0 None) s) k m Hk).
    cbn [call] in *. rewrite addMaterial_eq in *. simpl in *.
    rewrite length_app in IH. simpl in IH.
    by replace (length (materials s) + S k)%nat with (length (materials s) + 1 + k)%nat by lia.
Qed.

Lemma addMaterial_default_textureIndex_witness :
  [7%nat; 8%nat; 9%nat] !! 2%nat = Some 9%nat ∧
  materialAt (run ((fun m => AddMaterial m None) <$> [7%nat; 8%nat; 9%nat]) page)
             (Z.of_nat (length (materials page) + 2))
  = Some (mkMaterialData 9%nat 0).
Proof.
  split; [reflexivity |].
  exact (proj2 (proj2 addMaterial_default_textureIndex)
           [7%nat; 8%nat; 9%nat] page 2%nat 9%nat eq_refl).
Defined.

(** ** Indices out of range *)




(** ** haveSameMaterial and the history of assignments *)

Lemma setTexture_arrays m t s :
  meshes (setTexture m t s).2 = meshes s ∧ materials (setTexture m t s).2 = materials s.
Proof.
  by destruct (setTexture_cases m t s)
    as [(? & ? & ? & ? & ? & _ & _ & _ & _ & _ & ->) | [? ->]].
Qed.

Lemma refers_to_call c s a i :
  reassigns a c = false → refers_to s a i → refers_to (call c s) a i.
Proof.
  intros Hc (md & l & Ha & Hl & Hi). exists md, l.
  split; [by apply call_index_meshes |]. split; [done |]. by apply call_index_materials.
Qed.

Lemma last_assigned_refers_to cs : ∀ s cur a ia,
  wf s → all_in_bounds cs s →
  (∀ i, cur = Some i → refers_to s a i) →
  last_assigned (length (meshes s)) cs a cur = Some ia →
  refers_to (run cs s) a ia.
Proof.
  induction cs as [| c cs IH]; intros s cur a ia Hwf Hb Hcur Hlast.
  { simpl in *. by apply Hcur. }
  destruct Hb as [Hc Hb]. rewrite run_cons.
  pose proof (wf_call c s Hwf) as Hwf'.
  destruct c as [mesh i | m t | n d b | m i | m t | x y]; cbn [last_assigned] in Hlast.
  - (* addMesh *)
    eapply IH; [done | done | | ].
    2:{ cbn [call]. rewrite addMesh_eq. simpl. rewrite length_app. simpl.
        rewrite Nat.add_1_r. exact Hlast. }
    intros i0 Hi0. case_decide as Ha.
    + subst a i. simpl in Hc. apply index_is_Some in Hc as [l Hl].
      exists (mkMeshData mesh (Some l)), l. cbn [call]. split; [| done].
      rewrite addMesh_entry. simpl. by rewrite Hl.
    + apply refers_to_call; [done |]. by apply Hcur.
  - (* addMaterial *)
    eapply IH; [done | done | | exact Hlast].
    intros i0 Hi0. apply refers_to_call; [done |]. by apply Hcur.
  - (* addTexture *)
    eapply IH; [done | done | | exact Hlast].
    intros i0 Hi0. apply refers_to_call; [done |]. by apply Hcur.
  - (* setMaterial *)
    destruct Hc as [Hm Hi].
    destruct (wf_resolve s m i Hwf Hm Hi) as (md & l & e & Hmd & Hl & He).
    pose proof (setMaterial_returns m i s md l e Hmd Hl He) as Hset.
    assert (Hlen : length (meshes (call (SetMaterial m i) s)) = length (meshes s)).
    { cbn [call]. rewrite Hset. simpl. apply length_insert. }
    eapply IH; [done | done | | by rewrite Hlen].
    intros i0 Hi0. case_decide as Ha.
    + subst a. injection Hi0 as <-. cbn [call]. rewrite Hset. simpl.
      eexists _, l. split; [by apply index_insert_eq |]. by split.
    + apply refers_to_call; [| by apply Hcur].
      simpl. apply bool_decide_eq_false. congruence.
  - (* setTexture *)
    destruct (setTexture_arrays m t s) as [Hmeshes Hmats].
    eapply IH; [done | done | | cbn [call]; by rewrite Hmeshes].
    intros i0 Hi0. apply refers_to_call; [done |]. by apply Hcur.
  - (* haveSameMaterial *)
    cbn [call] in *. rewrite haveSameMaterial_store in *.
    eapply IH; [done | done | exact Hcur | exact Hlast].
Qed.

(** C2: after any sequence of calls on a new configurator in which the
    assigning calls have their indices in bounds, for two meshes [a] and [b]
    whose last assigning calls ([setMaterial], or [addMesh] with a material
    index) used the material indices [ia] and [ib], [haveSameMaterial(a, b)]
    returns [true] if and only if [ia = ib]. *)
Theorem haveSameMaterial_iff_same_index e cs a b ia ib :
  all_in_bounds cs (newConfigurator e) →
  last_assigned 0 cs a None = Some ia →
  last_assigned 0 cs b None = Some ib →
  (haveSameMaterial a b (run cs (newConfigurator e))).1 = inr (bool_decide (ia = ib)).
Proof.
  intros Hb Ha Hb'.
  pose proof (wf_newConfigurator e) as Hwf.
  destruct (last_assigned_refers_to cs _ None a ia Hwf Hb ltac:(done) Ha)
    as (da & la & Hda & Hla & Hia).
  destruct (last_assigned_refers_to cs _ None b ib Hwf Hb ltac:(done) Hb')
    as (db & lb & Hdb & Hlb & Hib).
  erewrite haveSameMaterial_returns by done. simpl. f_equal.
  rewrite Hla, Hlb. apply bool_decide_ext. split.
  - intros [= ->]. eapply index_inj; [| exact Hia | exact Hib].
    apply wf_nodup, wf_run, Hwf.
  - intros ->. congruence.
Qed.

Lemma haveSameMaterial_iff_same_index_witness :
  all_in_bounds script (newConfigurator blank) ∧
  last_assigned 0 script 0 None = Some 1 ∧
  last_assigned 0 script 1 None = Some 0 ∧
  (haveSameMaterial 0 1 (run script (newConfigurator blank))).1
  = inr (bool_decide (1 = 0)).
Proof.
  assert (Hb : all_in_bounds script (newConfigurator blank)).
  { repeat split; vm_compute; congruence. }
  split; [exact Hb |]. split; [reflexivity |]. split; [reflexivity |].
  exact (haveSameMaterial_iff_same_index blank script 0 1 1 0 Hb eq_refl eq_refl).
Defined.

(** ** The registries only grow *)

Lemma call_mesh_handles c s : ∃ new, mesh <$> meshes (call c s) = (mesh <$> meshes s) ++ new.
Proof.
  destruct c as [h i | m t | n d b | m i | m t | a b]; cbn [call].
  - eexists. rewrite addMesh_eq. simpl. by rewrite fmap_app.
  - exists []. by rewrite app_nil_r.
  - exists []. by rewrite app_nil_r.
  - exists []. rewrite app_nil_r.
    destruct (setMaterial_cases m i s) as [(md & l & e & Hm & _ & _ & ->) | ->]; [| done].
    simpl. rewrite list_fmap_insert. apply list_insert_id.
    apply index_Some in Hm as [_ Hm]. by rewrite list_lookup_fmap, Hm.
  - exists []. rewrite app_nil_r. by destruct (setTexture_arrays m t s) as [-> _].
  - exists []. by rewrite app_nil_r, haveSameMaterial_store.
Qed.

(** Whatever is called, [#materials] and [#textures] keep the elements they
    have, at the same indices, and so does [#meshes] as far as the renderable
    mesh of each entry goes: an index once valid stays valid, a texture entry
    is never changed, a material index never comes to denote another entry. *)
Theorem registries_grow cs s :
  materials s `prefix_of` materials (run cs s) ∧
  textures s `prefix_of` textures (run cs s) ∧
  (mesh <$> meshes s) `prefix_of` (mesh <$> meshes (run cs s)).
Proof.
  revert s. induction cs as [| c cs IH]; intros s; [done |].
  rewrite run_cons. destruct (IH (call c s)) as (Hm & Ht & Hh).
  destruct (call_materials c s) as [nm Hnm], (call_textures c s) as [nt Hnt],
    (call_mesh_handles c s) as [nh Hnh].
  repeat split.
  - etrans; [| exact Hm]. rewrite Hnm. by apply prefix_app_r.
  - etrans; [| exact Ht]. rewrite Hnt. by apply prefix_app_r.
  - etrans; [| exact Hh]. rewrite Hnh. by apply prefix_app_r.
Qed.

Lemma call_lengths c s :
  length (meshes (call c s)) = (length (meshes s) + if is_addMesh c then 1 else 0)%nat ∧
  length (materials (call c s))
  = (length (materials s) + if is_addMaterial c then 1 else 0)%nat ∧
  length (textures (call c s)) = (length (textures s) + if is_addTexture c then 1 else 0)%nat.
Proof.
  destruct c as [h i | m t | n d b | m i | m t | a b];
    cbn [call is_addMesh is_addMaterial is_addTexture].
  - rewrite addMesh_eq. simpl. rewrite length_app. simpl. lia.
  - rewrite addMaterial_eq. simpl. rewrite length_app. simpl. lia.
  - rewrite addTexture_eq. simpl. rewrite length_app. simpl. lia.
  - destruct (setMaterial_cases m i s) as [(md & l & e & _ & _ & _ & ->) | ->]; simpl;
      rewrite ?length_insert; lia.
  - destruct (setTexture_cases m t s)
      as [(? & ? & ? & ? & ? & _ & _ & _ & _ & _ & ->) | [? ->]]; simpl; lia.
  - rewrite haveSameMaterial_store. lia.
Qed.

(** Each registry grows by exactly one element per call of its own [add]
    method, returning or not, and by nothing else: no call removes an entry,
    and a failed [setMaterial] or [setTexture] registers nothing. *)
Theorem registries_length cs s :
  length (meshes (run cs s)) = (length (meshes s) + length (filter is_addMesh cs))%nat ∧
  length (materials (run cs s))
  = (length (materials s) + length (filter is_addMaterial cs))%nat ∧
  length (textures (run cs s))
  = (length (textures s) + length (filter is_addTexture cs))%nat.
Proof.
  revert s. induction cs as [| c cs IH]; intros s.
  { simpl. lia. }
  rewrite run_cons. destruct (IH (call c s)) as (Hm & Ht & Hh).
  destruct (call_lengths c s) as (Hm' & Ht' & Hh').
  rewrite Hm, Ht, Hh, Hm', Ht', Hh', !filter_cons.
  destruct c; simpl; lia.
Qed.

(** ** Reachable stores *)

Lemma closed_call c s : wf s → closed s → closed (call c s).
Proof.
  intros Hwf Hcl md l Hmd Hl.
  destruct c as [h i | m t | n d b | m i | m t | a b]; cbn [call] in *.
  - rewrite addMesh_eq in *. simpl in *.
    apply elem_of_app in Hmd as [Hmd | ->%list_elem_of_singleton]; [by eapply Hcl |].
    simpl in Hl. destruct i as [i |]; [| discriminate]. by eapply index_elem_of.
  - rewrite addMaterial_eq in *. simpl in *. apply elem_of_app. left. by eapply Hcl.
  - rewrite addTexture_eq in *. by eapply Hcl.
  - destruct (setMaterial_cases m i s) as [(md0 & l0 & e & Hm & Hi & _ & Heq) | Heq];
      rewrite Heq in *; simpl in *; [| by eapply Hcl].
    apply list_elem_of_lookup in Hmd as [k Hk].
    apply list_lookup_insert_Some in Hk as [(_ & <- & _) | (_ & Hk)].
    + injection Hl as <-. by eapply index_elem_of.
    + eapply Hcl; [by eapply list_elem_of_lookup_2 | done].
  - destruct (setTexture_arrays m t s) as [Hms Hmt]. rewrite Hms in Hmd. rewrite Hmt.
    by eapply Hcl.
  - rewrite haveSameMaterial_store in *. by eapply Hcl.
Qed.

Lemma closed_run cs s : wf s → closed s → closed (run cs s).
Proof.
  revert s. induction cs as [| c cs IH]; intros s Hwf Hcl; [done |].
  rewrite run_cons. apply IH; [by apply wf_call | by apply closed_call].
Qed.

(** In every store reached from a new configurator: two indices of
    [#materials] that hold the same entry object are the same index (so two
    registrations of one renderable material are two entries); an index of
    [#materials] is in bounds exactly when it resolves to a material entry;
    and every mesh entry has either no material or one that is an element of
    [#materials]. *)
Theorem reachable_store e cs :
  let s := run cs (newConfigurator e) in
  (∀ i j l, index (materials s) i = Some l → index (materials s) j = Some l → i = j) ∧
  (∀ i, in_range (materials s) i ↔ is_Some (materialAt s i)) ∧
  (∀ m md, index (meshes s) m = Some md →
           materialData md = None ∨ ∃ i, index (materials s) i = materialData md).
Proof.
  intros s.
  assert (Hwf : wf s) by apply wf_run, wf_newConfigurator.
  assert (Hcl : closed s).
  { apply closed_run; [apply wf_newConfigurator |]. intros md l Hmd. by apply elem_of_nil in Hmd. }
  split; [| split].
  - intros i j l. apply index_inj, Hwf.
  - intros i. split.
    + intros [l Hl]%index_is_Some. unfold materialAt. rewrite Hl. simpl.
      by eapply wf_index_materials.
    + unfold materialAt. intros [e' He']. apply index_is_Some.
      destruct (index (materials s) i); [eauto | discriminate].
  - intros m md Hm. destruct (materialData md) as [l |] eqn:Hl; [right | by left].
    apply index_elem_of in Hm. specialize (Hcl md l Hm Hl).
    apply list_elem_of_lookup in Hcl as [k Hk]. exists (Z.of_nat k).
    apply index_Some. split; [lia |]. by rewrite Nat2Z.id.
Qed.

Lemma reachable_store_witness :
  index (materials page) 0 = Some 0%nat ∧
  index (materials page) 0 = Some 0%nat ∧
  (0 = 0) ∧
  index (meshes page) 0 = Some (mkMeshData 1%nat (Some 0%nat)) ∧
  (materialData (mkMeshData 1%nat (Some 0%nat)) = None ∨
   ∃ i, index (materials page) i = materialData (mkMeshData 1%nat (Some 0%nat))).
Proof.
  assert (H0 : index (materials page) 0 = Some 0%nat) by (vm_compute; reflexivity).
  assert (Hm : index (meshes page) 0 = Some (mkMeshData 1%nat (Some 0%nat)))
    by (vm_compute; reflexivity).
  pose proof (reachable_store blank
    [AddMaterial 7%nat None; AddMaterial 8%nat None;
     AddMesh 1%nat (Some 0); AddMesh 2%nat None;
     AddTexture "Rock" (Some 3%nat) (Some 4%nat)]) as (Hinj & _ & Hmesh).
  split; [exact H0 |]. split; [exact H0 |].
  split; [exact (Hinj 0 0 0%nat H0 H0) |]. split; [exact Hm |].
  exact (Hmesh 0 _ Hm).
Defined.

(** ** When a method returns, and what a throw leaves behind *)

(** In a well-formed store: [setMaterial(m, i)] returns exactly when [m] is a
    registered mesh index and [i] an in-bounds material index;
    [setTexture(m, t)] returns exactly when [m] is registered, its renderable
    mesh has a material, its mesh entry has a material entry, and [t] is in
    bounds; [haveSameMaterial(a, b)] returns exactly when both are
    registered.  The three [add] methods always return. *)
Theorem returns_iff s :
  wf s →
  (∀ m i, returned (setMaterial m i s).1 ↔
          in_range (meshes s) m ∧ in_range (materials s) i) ∧
  (∀ m t, returned (setTexture m t s).1 ↔
          ∃ md, index (meshes s) m = Some md ∧
                is_Some (meshMaterial (engine s) !! mesh md) ∧
                is_Some (materialData md) ∧
                in_range (textures s) t) ∧
  (∀ a b, returned (haveSameMaterial a b s).1 ↔
          in_range (meshes s) a ∧ in_range (meshes s) b) ∧
  (∀ h i, returned (addMesh h i s).1) ∧
  (∀ h t, returned (addMaterial h t s).1) ∧
  (∀ n d b, returned (addTexture n d b s).1).
Proof.
  intros Hwf. split; [| split; [| split; [| done]]].
  - intros m i. split.
    + intros Hr. destruct (index (meshes s) m) as [md |] eqn:Hm; cycle 1.
      { rewrite setMaterial_throws in Hr by by left. done. }
      destruct (index (materials s) i) as [l |] eqn:Hi; cycle 1.
      { rewrite setMaterial_throws in Hr; [done |]. right. unfold materialAt. by rewrite Hi. }
      split; apply index_is_Some; eauto.
    + intros [Hm Hi]. destruct (wf_resolve s m i Hwf Hm Hi) as (md & l & e & ? & ? & ?).
      by erewrite setMaterial_returns.
  - intros m t. split.
    + intros Hr.
      destruct (setTexture_cases m t s)
        as [(md & h & td & l & e & Hm & Hh & Ht & Hl & He & Heq) | [e' Heq]];
        rewrite Heq in Hr; [| done].
      exists md. split; [done |]. split; [eauto |]. split; [eauto |].
      apply index_is_Some; eauto.
    + intros (md & Hm & [h Hh] & [l Hl] & [td Ht]%index_is_Some).
      destruct (wf_meshes s Hwf md l (index_elem_of _ _ _ Hm) Hl) as [e He].
      by erewrite setTexture_returns.
  - intros a b. split.
    + intros Hr. destruct (index (meshes s) a) as [d1 |] eqn:Ha; cycle 1.
      { rewrite haveSameMaterial_throws in Hr by by left. done. }
      destruct (index (meshes s) b) as [d2 |] eqn:Hb; cycle 1.
      { rewrite haveSameMaterial_throws in Hr by by right. done. }
      split; apply index_is_Some; eauto.
    + intros [[d1 Ha]%index_is_Some [d2 Hb]%index_is_Some].
      by erewrite haveSameMaterial_returns.
Qed.

Lemma returns_iff_witness :
  wf page ∧
  (in_range (meshes page) 1 ∧ in_range (materials page) 0) ∧
  returned (setMaterial 1 0 page).1.
Proof.
  assert (H : in_range (meshes page) 1 ∧ in_range (materials page) 0)
    by (split; in_range_tac).
  split; [exact wf_page |]. split; [exact H |].
  exact (proj2 (proj1 (returns_iff page wf_page) 1 0) H).
Defined.

(** A method that throws has written nothing to the configurator's own
    data: after a throwing [setMaterial] the whole store is as before, and
    after a throwing [setTexture] the three arrays and every material entry
    are.  [haveSameMaterial] never writes. *)
Theorem throw_keeps_registries s :
  (∀ m i, ¬ returned (setMaterial m i s).1 → (setMaterial m i s).2 = s) ∧
  (∀ m t, ¬ returned (setTexture m t s).1 →
          meshes (setTexture m t s).2 = meshes s ∧
          materials (setTexture m t s).2 = materials s ∧
          textures (setTexture m t s).2 = textures s ∧
          heap (setTexture m t s).2 = heap s) ∧
  (∀ a b, (haveSameMaterial a b s).2 = s).
Proof.
  split; [| split].
  - intros m i Hr.
    destruct (setMaterial_cases m i s) as [(? & ? & ? & _ & _ & _ & Heq) | Heq];
      rewrite Heq in *; [by destruct Hr | done].
  - intros m t Hr.
    destruct (setTexture_cases m t s)
      as [(? & ? & ? & ? & ? & _ & _ & _ & _ & _ & Heq) | [e' Heq]];
      rewrite Heq in *; [by destruct Hr | done].
  - intros a b. apply haveSameMaterial_store.
Qed.

Lemma throw_keeps_registries_witness :
  ¬ returned (setMaterial 5 0 page).1 ∧ (setMaterial 5 0 page).2 = page.
Proof.
  assert (H : ¬ returned (setMaterial 5 0 page).1) by (vm_compute; exact (fun x => x)).
  split; [exact H |].
  exact (proj1 (throw_keeps_registries page) 5 0 H).
Defined.

(** [setTexture] is not atomic.  For a registered mesh whose renderable mesh
    has a material [h] but whose mesh entry has none (registered by [addMesh]
    without a material index, never passed to [setMaterial]), and an
    in-bounds texture index, the call throws a TypeError after it has
    assigned both texture handles to [h]. *)
Theorem setTexture_partial_write s m t md h td :
  index (meshes s) m = Some md →
  materialData md = None →
  meshMaterial (engine s) !! mesh md = Some h →
  index (textures s) t = Some td →
  (setTexture m t s).1 = inl TypeError ∧
  materialDiffuse (engine (setTexture m t s).2) !! h = diffuseTexture td ∧
  materialBump (engine (setTexture m t s).2) !! h = bumpTexture td ∧
  meshMaterial (engine (setTexture m t s).2) = meshMaterial (engine s).
Proof.
  intros Hm Hd Hh Ht. erewrite setTexture_throws_late by (by rewrite ?Hd).
  simpl. split; [done |]. split; [apply assign_lookup_eq |].
  split; [apply assign_lookup_eq | done].
Qed.

Lemma setTexture_partial_write_witness :
  index (meshes loaded_page) 1 = Some (mkMeshData 2%nat None) ∧
  meshMaterial (engine loaded_page) !! 2%nat = Some 6%nat ∧
  index (textures loaded_page) 1 = Some (mkTextureData "Rock" (Some 3%nat) (Some 4%nat)) ∧
  (setTexture 1 1 loaded_page).1 = inl TypeError ∧
  materialDiffuse (engine (setTexture 1 1 loaded_page).2) !! 6%nat = Some 3%nat ∧
  materialBump (engine (setTexture 1 1 loaded_page).2) !! 6%nat = Some 4%nat ∧
  meshMaterial (engine (setTexture 1 1 loaded_page).2) = meshMaterial (engine loaded_page).
Proof.
  assert (Hm : index (meshes loaded_page) 1 = Some (mkMeshData 2%nat None))
    by (vm_compute; reflexivity).
  assert (Hh : meshMaterial (engine loaded_page) !! 2%nat = Some 6%nat)
    by (vm_compute; reflexivity).
  assert (Ht : index (textures loaded_page) 1
               = Some (mkTextureData "Rock" (Some 3%nat) (Some 4%nat)))
    by (vm_compute; reflexivity).
  split; [exact Hm |]. split; [exact Hh |]. split; [exact Ht |].
  exact (setTexture_partial_write loaded_page 1 1 _ 6%nat _ Hm eq_refl Hh Ht).
Defined.

(** ** The remembered texture index is a valid index *)

Lemma has_sentinel_call c s : has_sentinel s → has_sentinel (call c s).
Proof.
  unfold has_sentinel. intros Hs.
  destruct (call_textures c s) as [new ->]. by apply index_app_l.
Qed.

Lemma in_range_app {A} (a b : list A) i : in_range a i → in_range (a ++ b) i.
Proof. unfold in_range. rewrite length_app. lia. Qed.

Lemma index_snoc_Some {A} (a : list A) x i y :
  index (a ++ [x]) i = Some y →
  index a i = Some y ∨ (i = Z.of_nat (length a) ∧ y = x).
Proof.
  rewrite !index_Some. intros [Hi [Hl | (Hl & ->)]%lookup_snoc_Some].
  - left. by destruct Hl.
  - right. split; [lia | done].
Qed.

Lemma indices_valid_call c s :
  wf s → has_sentinel s → explicit_in_bounds c s →
  indices_valid s → indices_valid (call c s).
Proof.
  intros Hwf Hsen Hc Hv i e.
  destruct c as [h k | h t | n d b | m k | m t | a b]; cbn [call]; unfold materialAt.
  - rewrite addMesh_eq. apply Hv.
  - rewrite addMaterial_eq. simpl.
    destruct (index (materials s ++ [fresh (dom (heap s))]) i) as [l |] eqn:Hl;
      [| discriminate]. simpl.
    apply index_snoc_Some in Hl as [Hl | [-> ->]].
    + rewrite lookup_insert_ne.
      * intros He. apply (Hv i). unfold materialAt. by rewrite Hl.
      * intros <-. apply (fresh_not_in_materials s Hwf). by eapply index_elem_of.
    + rewrite lookup_insert_eq. intros [= <-]. simpl.
      destruct t as [t |]; simpl; [done |]. apply index_is_Some. by eexists.
  - rewrite addTexture_eq. simpl. intros He. apply in_range_app. by apply (Hv i).
  - destruct (setMaterial_cases m k s) as [(? & ? & ? & _ & _ & _ & ->) | ->]; apply Hv.
  - destruct (setTexture_cases m t s)
      as [(md & h & td & l & e0 & _ & _ & Ht & _ & _ & ->) | [? ->]]; simpl; [| apply Hv].
    destruct (index (materials s) i) as [l' |] eqn:Hl'; [| discriminate]. simpl.
    destruct (decide (l = l')) as [<- | Hne].
    + rewrite lookup_insert_eq. intros [= <-]. simpl. apply index_is_Some. eauto.
    + rewrite lookup_insert_ne by done. intros He. apply (Hv i).
      unfold materialAt. by rewrite Hl'.
  - rewrite haveSameMaterial_store. apply Hv.
Qed.

Lemma indices_valid_run cs s :
  wf s → has_sentinel s → all_explicit_in_bounds cs s →
  indices_valid s → indices_valid (run cs s).
Proof.
  revert s. induction cs as [| c cs IH]; intros s Hwf Hsen Hcs Hv; [done |].
  destruct Hcs as [Hc Hcs]. rewrite run_cons.
  apply IH; [by apply wf_call | by apply has_sentinel_call | done |].
  by apply indices_valid_call.
Qed.

(** After any sequence of calls on a new configurator in which no
    [addMaterial] passes a texture index that is out of bounds, a
    [setMaterial] that returns, returns an in-bounds texture index: the
    caller can look it up in [#textures] or select it in a list built from
    [#textures]. *)
Theorem setMaterial_returns_valid_index e cs m i r :
  all_explicit_in_bounds cs (newConfigurator e) →
  (setMaterial m i (run cs (newConfigurator e))).1 = inr r →
  in_range (textures (run cs (newConfigurator e))) r.
Proof.
  intros Hcs Hr.
  assert (Hv : indices_valid (run cs (newConfigurator e))).
  { apply indices_valid_run; [apply wf_newConfigurator | done | done |].
    intros k x Hk. unfold materialAt in Hk. simpl in Hk.
    unfold index in Hk. case_decide; [| done]. by rewrite lookup_nil in Hk. }
  destruct (setMaterial_cases m i (run cs (newConfigurator e)))
    as [(md & l & x & _ & Hi & Hx & Heq) | Heq]; rewrite Heq in Hr; [| done].
  injection Hr as <-. apply (Hv i). unfold materialAt. by rewrite Hi.
Qed.

Lemma setMaterial_returns_valid_index_witness :
  all_explicit_in_bounds script (newConfigurator blank) ∧
  (setMaterial 1 1 (run script (newConfigurator blank))).1 = inr 0 ∧
  in_range (textures (run script (newConfigurator blank))) 0.
Proof.
  assert (Hcs : all_explicit_in_bounds script (newConfigurator blank))
    by (vm_compute; tauto).
  assert (Hr : (setMaterial 1 1 (run script (newConfigurator blank))).1 = inr 0)
    by (vm_compute; reflexivity).
  split; [exact Hcs |]. split; [exact Hr |].
  exact (setMaterial_returns_valid_index blank script 1 1 0 Hcs Hr).
Defined.

(** ** How setMaterial and setTexture compose *)

(** [setMaterial(m, i)] followed by [setTexture(m, t)], all indices valid:
    the renderable material of material entry [i] is attached to the
    renderable mesh of [m] and carries the diffuse and bump handles of
    texture entry [t]. *)
Theorem setMaterial_setTexture_engine s m i t :
  wf s → in_range (meshes s) m → in_range (materials s) i → in_range (textures s) t →
  ∃ md e td,
    index (meshes s) m = Some md ∧ materialAt s i = Some e ∧ index (textures s) t = Some td ∧
    meshMaterial (engine (run [SetMaterial m i; SetTexture m t] s)) !! mesh md
    = Some (material e) ∧
    materialDiffuse (engine (run [SetMaterial m i; SetTexture m t] s)) !! material e
    = diffuseTexture td ∧
    materialBump (engine (run [SetMaterial m i; SetTexture m t] s)) !! material e
    = bumpTexture td.
Proof.
  intros Hwf Hm Hi [td Ht]%index_is_Some.
  destruct (wf_resolve s m i Hwf Hm Hi) as (md & l & e & Hmd & Hl & He).
  exists md, e, td. split; [done |]. split; [by unfold materialAt; rewrite Hl |].
  split; [done |].
  unfold run. cbn [foldl call]. rewrite (setMaterial_returns m i s md l e) by done.
  cbn [snd].
  erewrite setTexture_returns;
    [| by apply index_insert_eq | apply lookup_insert_eq | exact Ht | done | exact He].
  simpl. rewrite lookup_insert_eq, !assign_lookup_eq. done.
Qed.

Lemma setMaterial_setTexture_engine_witness :
  wf page ∧ in_range (meshes page) 1 ∧ in_range (materials page) 1 ∧
  in_range (textures page) 1 ∧
  ∃ md e td,
    index (meshes page) 1 = Some md ∧ materialAt page 1 = Some e ∧
    index (textures page) 1 = Some td ∧
    meshMaterial (engine (run [SetMaterial 1 1; SetTexture 1 1] page)) !! mesh md
    = Some (material e) ∧
    materialDiffuse (engine (run [SetMaterial 1 1; SetTexture 1 1] page)) !! material e
    = diffuseTexture td ∧
    materialBump (engine (run [SetMaterial 1 1; SetTexture 1 1] page)) !! material e
    = bumpTexture td.
Proof.
  assert (Hm : in_range (meshes page) 1) by in_range_tac.
  assert (Hi : in_range (materials page) 1) by in_range_tac.
  assert (Ht : in_range (textures page) 1) by in_range_tac.
  split; [exact wf_page |]. split; [exact Hm |]. split; [exact Hi |]. split; [exact Ht |].
  exact (setMaterial_setTexture_engine page 1 1 1 wf_page Hm Hi Ht).
Defined.

Lemma setTexture_meshMaterial m t s :
  meshMaterial (engine (setTexture m t s).2) = meshMaterial (engine s).
Proof.
  destruct (index (meshes s) m) as [md |] eqn:Hm;
    [| by rewrite setTexture_throws_early by by left].
  destruct (meshMaterial (engine s) !! mesh md) as [h |] eqn:Hh;
    [| by rewrite setTexture_throws_early by (right; left; eauto)].
  destruct (index (textures s) t) as [td |] eqn:Ht;
    [| by rewrite setTexture_throws_early by (by right; right)].
  destruct (materialData md ≫= (fun l => heap s !! l)) as [e |] eqn:Hl.
  - destruct (materialData md) as [l |] eqn:Hd; [| discriminate]. simpl in Hl.
    by erewrite setTexture_returns.
  - by erewrite setTexture_throws_late.
Qed.

(** What [setTexture] leaves alone: the three arrays and the material of
    every renderable mesh, always; and, when mesh [m] refers to the material
    entry at index [i] of a well-formed store, the material entry at every
    other index. *)
Theorem setTexture_frame s m t :
  meshes (setTexture m t s).2 = meshes s ∧
  materials (setTexture m t s).2 = materials s ∧
  textures (setTexture m t s).2 = textures s ∧
  meshMaterial (engine (setTexture m t s).2) = meshMaterial (engine s) ∧
  (∀ i j, wf s → refers_to s m i → j ≠ i →
          materialAt (setTexture m t s).2 j = materialAt s j).
Proof.
  split; [apply setTexture_arrays |]. split; [apply setTexture_arrays |].
  split; [| split; [apply setTexture_meshMaterial |]].
  { by destruct (setTexture_cases m t s)
      as [(? & ? & ? & ? & ? & _ & _ & _ & _ & _ & ->) | [? ->]]. }
  destruct (setTexture_cases m t s)
    as [(md & h & td & l & e & Hm & Hh & Ht & Hl & He & ->) | [e' ->]]; simpl; [| done].
  intros i j Hwf (md' & l' & Hm' & Hl' & Hi) Hne.
  assert (l' = l) as -> by congruence.
  unfold materialAt. simpl.
  destruct (index (materials s) j) as [lj |] eqn:Hj; [| done]. simpl.
  apply lookup_insert_ne. intros <-. apply Hne.
  by eapply index_inj; [apply Hwf | |].
Qed.

Lemma setTexture_frame_witness :
  wf page1 ∧ refers_to page1 0 1 ∧ 0 ≠ 1 ∧
  materialAt (setTexture 0 1 page1).2 0 = materialAt page1 0.
Proof.
  assert (Hr : refers_to page1 0 1).
  { exists (mkMeshData 1%nat (Some 1%nat)), 1%nat. vm_compute. done. }
  assert (Hwf : wf page1) by apply wf_call, wf_page.
  assert (Hne : 0 ≠ 1) by discriminate.
  split; [exact Hwf |]. split; [exact Hr |]. split; [exact Hne |].
  exact (proj2 (proj2 (proj2 (proj2 (setTexture_frame page1 0 1)))) 1 0 Hwf Hr Hne).
Defined.

Lemma assign_assign o v w (m : gmap nat nat) : assign o v (assign o w m) = assign o v m.
Proof.
  destruct v, w; simpl.
  - apply insert_insert_eq.
  - apply insert_delete_eq.
  - apply delete_insert_eq.
  - apply delete_delete_eq.
Qed.

(** The last assignment wins: [setMaterial(m, i)] followed by
    [setMaterial(m, j)] leaves the store that [setMaterial(m, j)] alone
    leaves; in particular repeating a [setMaterial] changes nothing more. *)
Theorem setMaterial_last_wins s m i j :
  wf s → in_range (meshes s) m → in_range (materials s) i → in_range (materials s) j →
  run [SetMaterial m i; SetMaterial m j] s = call (SetMaterial m j) s.
Proof.
  intros Hwf Hm Hi Hj.
  destruct (wf_resolve s m i Hwf Hm Hi) as (md & li & ei & Hmd & Hli & Hei).
  destruct (wf_resolve s m j Hwf Hm Hj) as (? & lj & ej & _ & Hlj & Hej).
  unfold run. cbn [foldl call].
  rewrite (setMaterial_returns m i s md li ei) by done. cbn [snd].
  rewrite (setMaterial_returns m j s md lj ej) by done. cbn [snd].
  erewrite setMaterial_returns; [| by apply index_insert_eq | exact Hlj | exact Hej].
  simpl. rewrite list_insert_insert_eq. unfold set_meshMaterial. simpl.
  by rewrite insert_insert_eq.
Qed.

Lemma setMaterial_last_wins_witness :
  wf page ∧ in_range (meshes page) 0 ∧ in_range (materials page) 1 ∧
  in_range (materials page) 0 ∧
  run [SetMaterial 0 1; SetMaterial 0 0] page = call (SetMaterial 0 0) page.
Proof.
  assert (Hm : in_range (meshes page) 0) by in_range_tac.
  assert (Hi : in_range (materials page) 1) by in_range_tac.
  assert (Hj : in_range (materials page) 0) by in_range_tac.
  split; [exact wf_page |]. split; [exact Hm |]. split; [exact Hi |]. split; [exact Hj |].
  exact (setMaterial_last_wins page 0 1 0 wf_page Hm Hi Hj).
Defined.

(** Likewise for textures: when [setTexture(m, t1)] returns and [t2] is in
    bounds, [setTexture(m, t1)] followed by [setTexture(m, t2)] leaves the
    store that [setTexture(m, t2)] alone leaves. *)
Theorem setTexture_last_wins s m t1 t2 :
  returned (setTexture m t1 s).1 → in_range (textures s) t2 →
  run [SetTexture m t1; SetTexture m t2] s = call (SetTexture m t2) s.
Proof.
  intros Hr [td2 Ht2]%index_is_Some.
  destruct (setTexture_cases m t1 s)
    as [(md & h & td & l & e & Hm & Hh & Ht & Hl & He & Heq) | [e' Heq]];
    rewrite Heq in Hr; [| done].
  unfold run. cbn [foldl call]. rewrite Heq. cbn [snd].
  rewrite (setTexture_returns m t2 s md h td2 l e) by done. cbn [snd].
  erewrite setTexture_returns;
    [| exact Hm | exact Hh | exact Ht2 | exact Hl | apply lookup_insert_eq].
  simpl. rewrite insert_insert_eq. unfold set_bumpTexture, set_diffuseTexture. simpl.
  by rewrite !assign_assign.
Qed.

Lemma setTexture_last_wins_witness :
  returned (setTexture 0 1 page1).1 ∧ in_range (textures page1) 0 ∧
  run [SetTexture 0 1; SetTexture 0 0] page1 = call (SetTexture 0 0) page1.
Proof.
  assert (Hr : returned (setTexture 0 1 page1).1) by (vm_compute; exact I).
  assert (Ht : in_range (textures page1) 0) by in_range_tac.
  split; [exact Hr |]. split; [exact Ht |].
  exact (setTexture_last_wins page1 0 1 0 Hr Ht).
Defined.

(** ** haveSameMaterial as a relation *)

(** On the registered meshes of any store [haveSameMaterial] is an
    equivalence: it returns [true] on a mesh and itself, gives the same
    outcome (result or exception) with its arguments swapped, and is
    transitive. *)
Theorem haveSameMaterial_equivalence s :
  (∀ a, in_range (meshes s) a → (haveSameMaterial a a s).1 = inr true) ∧
  (∀ a b, (haveSameMaterial a b s).1 = (haveSameMaterial b a s).1) ∧
  (∀ a b c, (haveSameMaterial a b s).1 = inr true →
            (haveSameMaterial b c s).1 = inr true →
            (haveSameMaterial a c s).1 = inr true).
Proof.
  split; [| split].
  - intros a [d Ha]%index_is_Some.
    rewrite (haveSameMaterial_returns a a s d d) by done. simpl.
    by rewrite bool_decide_eq_true_2.
  - intros a b.
    destruct (index (meshes s) a) as [d1 |] eqn:Ha; cycle 1.
    { rewrite !haveSameMaterial_throws; auto. }
    destruct (index (meshes s) b) as [d2 |] eqn:Hb; cycle 1.
    { rewrite !haveSameMaterial_throws; auto. }
    rewrite (haveSameMaterial_returns a b s d1 d2), (haveSameMaterial_returns b a s d2 d1)
      by done.
    simpl. f_equal. apply bool_decide_ext. split; congruence.
  - intros a b c Hab Hbc.
    destruct (index (meshes s) a) as [d1 |] eqn:Ha; cycle 1.
    { rewrite haveSameMaterial_throws in Hab by by left. done. }
    destruct (index (meshes s) b) as [d2 |] eqn:Hb; cycle 1.
    { rewrite haveSameMaterial_throws in Hab by by right. done. }
    destruct (index (meshes s) c) as [d3 |] eqn:Hc; cycle 1.
    { rewrite haveSameMaterial_throws in Hbc by by right. done. }
    rewrite (haveSameMaterial_returns a b s d1 d2) in Hab by done.
    rewrite (haveSameMaterial_returns b c s d2 d3) in Hbc by done.
    rewrite (haveSameMaterial_returns a c s d1 d3) by done.
    simpl in *. injection Hab as Hab. injection Hbc as Hbc.
    apply bool_decide_eq_true in Hab, Hbc.
    f_equal. apply bool_decide_eq_true. congruence.
Qed.

Lemma haveSameMaterial_equivalence_witness :
  in_range (meshes page) 1 ∧ (haveSameMaterial 1 1 page).1 = inr true.
Proof.
  assert (H : in_range (meshes page) 1) by in_range_tac.
  split; [exact H |].
  exact (proj1 (haveSameMaterial_equivalence page) 1 H).
Defined.

(** [haveSameMaterial] tells whether a texture change on one mesh shows on
    the other.  When [haveSameMaterial(a, b)] returns and [setTexture(a, t)]
    returns: if the answer was [true], the material entry of mesh [b]
    remembers [t] afterwards; if it was [false], the material entry of mesh
    [b] (or its absence) is as before. *)
Theorem haveSameMaterial_decides_sharing s a b t same :
  (haveSameMaterial a b s).1 = inr same →
  returned (setTexture a t s).1 →
  if same then textureIndex <$> materialOf (setTexture a t s).2 b = Some t
  else materialOf (setTexture a t s).2 b = materialOf s b.
Proof.
  intros Hsame Hr.
  destruct (setTexture_cases a t s)
    as [(md & h & td & l & e & Hm & Hh & Ht & Hl & He & Heq) | [e' Heq]];
    rewrite Heq in *; [| done]. clear Hr.
  destruct (index (meshes s) b) as [d2 |] eqn:Hb; cycle 1.
  { rewrite haveSameMaterial_throws in Hsame by by right. done. }
  rewrite (haveSameMaterial_returns a b s md d2) in Hsame by done.
  injection Hsame as <-. unfold materialOf. simpl. rewrite Hb. simpl.
  case_bool_decide as Heqd.
  - rewrite <- Heqd, Hl. simpl. by rewrite lookup_insert_eq.
  - destruct (materialData d2) as [l2 |]; [| done]. simpl.
    apply lookup_insert_ne. congruence.
Qed.

Lemma haveSameMaterial_decides_sharing_witness :
  (haveSameMaterial 0 1 page1).1 = inr false ∧
  returned (setTexture 0 1 page1).1 ∧
  materialOf (setTexture 0 1 page1).2 1 = materialOf page1 1.
Proof.
  assert (Hs : (haveSameMaterial 0 1 page1).1 = inr false) by (vm_compute; reflexivity).
  assert (Hr : returned (setTexture 0 1 page1).1) by (vm_compute; exact I).
  split; [exact Hs |]. split; [exact Hr |].
  exact (haveSameMaterial_decides_sharing page1 0 1 1 false Hs Hr).
Defined.

(** ** The control panel *)

Lemma selected_set_value v sel : v ∈ values sel → selected (set_value v sel) = Some v.
Proof. intros Hv. unfold set_value. simpl. by rewrite decide_True. Qed.

Lemma shows_setMaterial_self s k v md l e mat tex :
  index (meshes s) k = Some md → index (materials s) v = Some l → heap s !! l = Some e →
  selected mat = Some v → selected tex = Some (textureIndex e) →
  shows (setMaterial k v s).2 k mat tex.
Proof.
  intros Hk Hv He Hmat Htex. rewrite (setMaterial_returns k v s md l e) by done.
  exists (mkMeshData (mesh md) (Some l)), l, e, v. simpl.
  split; [apply index_insert_eq, index_is_Some; eauto |].
  split; [rewrite lookup_insert_eq; eauto |]. done.
Qed.

Lemma shows_setMaterial_other s k k' v mat tex :
  k ≠ k' → shows s k' mat tex → shows (setMaterial k v s).2 k' mat tex.
Proof.
  intros Hne Hs.
  destruct (setMaterial_cases k v s) as [(md & l & e & Hk & Hv & He & ->) | ->]; [| done].
  destruct Hs as (md' & l' & e' & i' & Hk' & Hh & Hl' & Hi' & He' & Hmat & Htex).
  exists md', l', e', i'. simpl.
  split; [rewrite index_insert_ne; [done | by apply index_Some in Hk as [? _] | done] |].
  split; [apply lookup_insert_is_Some'; by right |]. done.
Qed.

Lemma shows_setTexture_self s k t md h l e mat tex :
  index (meshes s) k = Some md → meshMaterial (engine s) !! mesh md = Some h →
  materialData md = Some l → heap s !! l = Some e → in_range (textures s) t →
  (∃ i, index (materials s) i = Some l ∧ selected mat = Some i) →
  selected tex = Some t →
  shows (setTexture k t s).2 k mat tex.
Proof.
  intros Hk Hh Hl He [td Ht]%index_is_Some (i & Hi & Hmat) Htex.
  rewrite (setTexture_returns k t s md h td l e) by done.
  exists md, l, (mkMaterialData (material e) t), i. simpl.
  rewrite lookup_insert_eq. eauto 10.
Qed.

(** The other mesh after a [setTexture] that returned: its texture dropdown
    has to follow exactly when the two mesh entries have the same material. *)
Lemma shows_setTexture_other s k k' t mat tex0 tex (same : bool) :
  returned (setTexture k t s).1 →
  (haveSameMaterial k' k (setTexture k t s).2).1 = inr same
  ∨ (haveSameMaterial k k' (setTexture k t s).2).1 = inr same →
  shows s k' mat tex0 →
  selected tex = (if same then Some t else selected tex0) →
  shows (setTexture k t s).2 k' mat tex.
Proof.
  intros Hr Hsame (md' & l' & e' & i' & Hk' & Hh' & Hl' & Hi' & He' & Hmat & Htex) Hsel.
  destruct (setTexture_cases k t s)
    as [(md & h & td & l & e & Hk & Hh & Ht & Hl & He & Heq) | [? Heq]];
    rewrite Heq in *; [| done].
  assert (same = bool_decide (l' = l)) as ->.
  { destruct Hsame as [Hsame | Hsame];
      erewrite haveSameMaterial_returns in Hsame by done; injection Hsame as <-;
      rewrite Hl, Hl'; apply bool_decide_ext; split; congruence. }
  case_bool_decide as Hd.
  - subst l'. exists md', l, (mkMaterialData (material e) t), i'. simpl.
    rewrite lookup_insert_eq. eauto 10.
  - exists md', l', e', i'. simpl. rewrite lookup_insert_ne by congruence.
    rewrite Hsel. eauto 10.
Qed.

Lemma offered_setTexture s k t (vs : list Z) :
  t ∈ vs →
  (∀ i e, materialAt s i = Some e → textureIndex e ∈ vs) →
  ∀ i e, materialAt (setTexture k t s).2 i = Some e → textureIndex e ∈ vs.
Proof.
  intros Ht Hv i e.
  destruct (setTexture_cases k t s)
    as [(md & h & td & l & e0 & _ & _ & _ & _ & _ & ->) | [? ->]]; [| apply Hv].
  unfold materialAt. simpl.
  destruct (index (materials s) i) as [l' |] eqn:Hl'; [| discriminate]. simpl.
  destruct (decide (l = l')) as [<- | Hne].
  - rewrite lookup_insert_eq. by intros [= <-].
  - rewrite lookup_insert_ne by done. intros He. apply (Hv i). unfold materialAt.
    by rewrite Hl'.
Qed.

Lemma setMaterial_materialAt m i s k : materialAt (setMaterial m i s).2 k = materialAt s k.
Proof. by destruct (setMaterial_cases m i s) as [(? & ? & ? & _ & _ & _ & ->) | ->]. Qed.

Lemma setMaterial_arrays m i s :
  materials (setMaterial m i s).2 = materials s ∧ textures (setMaterial m i s).2 = textures s.
Proof. by destruct (setMaterial_cases m i s) as [(? & ? & ? & _ & _ & _ & ->) | ->]. Qed.

Lemma setTexture_textures m t s : textures (setTexture m t s).2 = textures s.
Proof.
  by destruct (setTexture_cases m t s)
    as [(? & ? & ? & ? & ? & _ & _ & _ & _ & _ & ->) | [? ->]].
Qed.

Lemma change_material_returns s p d k v t settex :
  handler d = (fun v p => let* t := setMaterial k v in ret (settex t p)) →
  (setMaterial k v s).1 = inr t →
  change d v (s, p) = ((setMaterial k v s).2, settex t (pick d v p)).
Proof.
  intros Hd Ht. unfold change. rewrite Hd. unfold bind, ret. cbn [fst snd].
  destruct (setMaterial k v s) as [[? | ?] ?]; simpl in *; congruence.
Qed.

Lemma change_texture_returns s p d k v same settex :
  handler d = (fun v p => setTexture k v ;;;
                          let* same := haveSameMaterial 0 1 in
                          ret (if same then settex v p else p)) →
  returned (setTexture k v s).1 →
  (haveSameMaterial 0 1 (setTexture k v s).2).1 = inr same →
  change d v (s, p)
  = ((setTexture k v s).2, if same then settex v (pick d v p) else pick d v p).
Proof.
  intros Hd Hr Hs. unfold change. rewrite Hd. unfold bind, ret. cbn [fst snd].
  pose proof (haveSameMaterial_store 0 1 (setTexture k v s).2) as Hst.
  destruct (setTexture k v s) as [[? | ?] s']; simpl in *; [done |].
  destruct (haveSameMaterial 0 1 s') as [[? | b] s'']; simpl in *; [done |].
  injection Hs as ->. by subst s''.
Qed.

Lemma synced_setMaterial_ranges s p k v :
  synced s p →
  (∀ x, x ∈ values (lidMatSelect p) ∨ x ∈ values (potMatSelect p) →
        in_range (materials (setMaterial k v s).2) x) ∧
  (∀ x, x ∈ values (lidTexSelect p) ∨ x ∈ values (potTexSelect p) →
        in_range (textures (setMaterial k v s).2) x) ∧
  (∀ i e, materialAt (setMaterial k v s).2 i = Some e →
          textureIndex e ∈ values (lidTexSelect p) ∧
          textureIndex e ∈ values (potTexSelect p)).
Proof.
  intros Hs. destruct (setMaterial_arrays k v s) as [-> ->].
  split; [apply Hs |]. split; [apply Hs |].
  intros i e. rewrite setMaterial_materialAt. apply Hs.
Qed.

Lemma synced_setTexture_ranges s p k v :
  synced s p → v ∈ values (lidTexSelect p) →
  (∀ x, x ∈ values (lidMatSelect p) ∨ x ∈ values (potMatSelect p) →
        in_range (materials (setTexture k v s).2) x) ∧
  (∀ x, x ∈ values (lidTexSelect p) ∨ x ∈ values (potTexSelect p) →
        in_range (textures (setTexture k v s).2) x) ∧
  (∀ i e, materialAt (setTexture k v s).2 i = Some e →
          textureIndex e ∈ values (lidTexSelect p) ∧
          textureIndex e ∈ values (potTexSelect p)).
Proof.
  intros Hs Hv. destruct (setTexture_arrays k v s) as [_ ->]. rewrite setTexture_textures.
  split; [apply Hs |]. split; [apply Hs |].
  intros i e He. split.
  - eapply offered_setTexture; [exact Hv | | exact He]. intros. by eapply Hs.
  - eapply offered_setTexture; [| | exact He].
    + by rewrite <- (synced_same s p Hs).
    + intros. by eapply Hs.
Qed.

(** A mesh shown by its dropdowns can have its material and its texture
    set from any of the offered options. *)
Lemma shows_resolve s k mat tex :
  shows s k mat tex → in_range (meshes s) k.
Proof. intros (md & ? & ? & ? & Hk & _). apply index_is_Some. eauto. Qed.

Lemma synced_material_change s p d k v (mat tex mat' tex' : Panel → Select) settex :
  synced s p →
  k ≠ 1 - k →
  shows s k (mat p) (tex p) → shows s (1 - k) (mat' p) (tex' p) →
  in_range (materials s) v →
  values (tex p) = values (lidTexSelect p) →
  (∀ t, selected (mat (settex t (pick d v p))) = Some v ∧
        tex (settex t (pick d v p)) = set_value t (tex p) ∧
        mat' (settex t (pick d v p)) = mat' p ∧
        tex' (settex t (pick d v p)) = tex' p) →
  ∃ t, (setMaterial k v s).1 = inr t ∧
       shows (setMaterial k v s).2 k (mat (settex t (pick d v p)))
             (tex (settex t (pick d v p))) ∧
       shows (setMaterial k v s).2 (1 - k) (mat' (settex t (pick d v p)))
             (tex' (settex t (pick d v p))).
Proof.
  intros Hs Hne Hk Hk' Hv Hvals Hp.
  destruct (wf_resolve s k v (synced_wf s p Hs) (shows_resolve _ _ _ _ Hk) Hv)
    as (md & l & e & Hmd & Hl & He).
  exists (textureIndex e). destruct (Hp (textureIndex e)) as (Hm1 & -> & -> & ->).
  split; [by rewrite (setMaterial_returns k v s md l e) |]. split.
  - eapply shows_setMaterial_self; try done.
    apply selected_set_value. rewrite Hvals.
    apply (synced_offered s p Hs v). unfold materialAt. by rewrite Hl.
  - by apply shows_setMaterial_other.
Qed.

Lemma synced_texture_change s p d k v (mat tex mat' tex' : Panel → Select) settex :
  synced s p →
  (k = 0 ∨ k = 1) →
  shows s k (mat p) (tex p) → shows s (1 - k) (mat' p) (tex' p) →
  v ∈ values (lidTexSelect p) →
  values (tex' p) = values (lidTexSelect p) →
  (∀ same : bool, let p' := if same then settex v (pick d v p) else pick d v p in
           selected (tex p') = Some v ∧ mat p' = mat p ∧ mat' p' = mat' p ∧
           tex' p' = if same then set_value v (tex' p) else tex' p) →
  ∃ same : bool, returned (setTexture k v s).1 ∧
          (haveSameMaterial 0 1 (setTexture k v s).2).1 = inr same ∧
          let p' := if same then settex v (pick d v p) else pick d v p in
          shows (setTexture k v s).2 k (mat p') (tex p') ∧
          shows (setTexture k v s).2 (1 - k) (mat' p') (tex' p').
Proof.
  intros Hs Hk01 Hk Hk' Hv Hvals Hp.
  assert (Ht : in_range (textures s) v) by (apply (synced_textures s p Hs); by left).
  pose proof Hk as (md & l & e & i & Hmd & [h Hh] & Hl & Hi & He & Hmat & Htex).
  pose proof Hk' as (md' & l' & e' & i' & Hmd' & _ & Hl' & _).
  pose proof Ht as [td Htd]%index_is_Some.
  assert (Hr : returned (setTexture k v s).1)
    by by rewrite (setTexture_returns k v s md h td l e).
  assert (Hsame : ∃ same, (haveSameMaterial 0 1 (setTexture k v s).2).1 = inr same).
  { destruct (setTexture_arrays k v s) as [Hms _].
    destruct Hk01 as [-> | ->]; simpl in Hmd';
      eexists; erewrite haveSameMaterial_returns; rewrite ?Hms; done. }
  destruct Hsame as [same Hsame]. exists same. split; [done |]. split; [done |].
  specialize (Hp same). cbv zeta in Hp |- *.
  destruct Hp as (Hsel & -> & -> & ->). split.
  - eapply shows_setTexture_self; eauto.
  - eapply shows_setTexture_other; [done | | exact Hk' |].
    + destruct Hk01 as [-> | ->]; [right | left]; exact Hsame.
    + destruct same; [| done]. apply selected_set_value. by rewrite Hvals.
Qed.

Lemma synced_change s p d v :
  synced s p → v ∈ values (select_of d p) →
  synced (change d v (s, p)).1 (change d v (s, p)).2.
Proof.
  intros Hs Hv. pose proof Hs as [Hwf Hpot Hlid Hmats Htexs Hsame Hoff].
  destruct d; simpl in Hv.
  - (* lidMatSelect *)
    destruct (synced_material_change s p LidMat 1 v lidMatSelect lidTexSelect
                potMatSelect potTexSelect (fun t => with_lidTexSelect (set_value t)))
      as (t & Ht & Hl & Hp); try done; [by apply Hmats; left |].
    rewrite (change_material_returns s p LidMat 1 v t
               (fun t => with_lidTexSelect (set_value t))) by done.
    destruct (synced_setMaterial_ranges s p 1 v Hs) as (? & ? & ?).
    split; try done. by apply wf_setMaterial.
  - (* potMatSelect *)
    destruct (synced_material_change s p PotMat 0 v potMatSelect potTexSelect
                lidMatSelect lidTexSelect (fun t => with_potTexSelect (set_value t)))
      as (t & Ht & Hp & Hl); try done; [by apply Hmats; right |].
    rewrite (change_material_returns s p PotMat 0 v t
               (fun t => with_potTexSelect (set_value t))) by done.
    destruct (synced_setMaterial_ranges s p 0 v Hs) as (? & ? & ?).
    split; try done. by apply wf_setMaterial.
  - (* lidTexSelect *)
    destruct (synced_texture_change s p LidTex 1 v lidMatSelect lidTexSelect
                potMatSelect potTexSelect (fun v => with_potTexSelect (set_value v)))
      as (same & Hr & Hsm & Hl & Hp); try done; [by right | by intros [] |].
    rewrite (change_texture_returns s p LidTex 1 v same
               (fun v => with_potTexSelect (set_value v))) by done.
    destruct (synced_setTexture_ranges s p 1 v Hs Hv) as (? & ? & ?).
    cbv zeta in Hl, Hp.
    split; try (by destruct same); [by apply wf_setTexture].
  - (* potTexSelect *)
    assert (Hv' : v ∈ values (lidTexSelect p)) by by rewrite Hsame.
    destruct (synced_texture_change s p PotTex 0 v potMatSelect potTexSelect
                lidMatSelect lidTexSelect (fun v => with_lidTexSelect (set_value v)))
      as (same & Hr & Hsm & Hp & Hl); try done; [by left | by intros [] |].
    rewrite (change_texture_returns s p PotTex 0 v same
               (fun v => with_lidTexSelect (set_value v))) by done.
    destruct (synced_setTexture_ranges s p 0 v Hs Hv') as (? & ? & ?).
    cbv zeta in Hl, Hp.
    split; try (by destruct same); [by apply wf_setTexture].
Qed.

Lemma handler_values d v p s d' :
  match (handler d v p s).1 with
  | inr p' => values (select_of d' p') = values (select_of d' p)
  | inl _ => True
  end.
Proof.
  destruct d; unfold handler, lidMat_change, potMat_change, lidTex_change, potTex_change,
    bind, ret.
  - destruct (setMaterial 1 v s) as [[? | ?] ?]; [done |]. by destruct d'.
  - destruct (setMaterial 0 v s) as [[? | ?] ?]; [done |]. by destruct d'.
  - destruct (setTexture 1 v s) as [[? | ?] s']; [done |].
    destruct (haveSameMaterial 0 1 s') as [[? | []] ?]; [done | |]; by destruct d'.
  - destruct (setTexture 0 v s) as [[? | ?] s']; [done |].
    destruct (haveSameMaterial 0 1 s') as [[? | []] ?]; [done | |]; by destruct d'.
Qed.

Lemma change_values d v sp d' :
  values (select_of d' (change d v sp).2) = values (select_of d' sp.2).
Proof.
  unfold change. pose proof (handler_values d v (pick d v sp.2) sp.1 d') as H.
  destruct (handler d v (pick d v sp.2) sp.1) as [[? | p'] ?]; simpl in *.
  - by destruct d, d'.
  - rewrite H. by destruct d, d'.
Qed.

Lemma changes_snoc evs ev sp : changes (evs ++ [ev]) sp = change ev.1 ev.2 (changes evs sp).
Proof. unfold changes. by rewrite foldl_snoc. Qed.

Lemma changes_values evs sp d' :
  values (select_of d' (changes evs sp).2) = values (select_of d' sp.2).
Proof.
  induction evs as [| ev evs IH] using rev_ind; [done |].
  by rewrite changes_snoc, change_values.
Qed.

Lemma synced_changes evs s p :
  synced s p → Forall (offered p) evs →
  synced (changes evs (s, p)).1 (changes evs (s, p)).2.
Proof.
  intros Hs. induction evs as [| [d v] evs IH] using rev_ind; intros Hevs; [done |].
  apply Forall_app in Hevs as [Hevs [Hev _]%Forall_cons].
  rewrite changes_snoc. cbn [fst snd].
  destruct (changes evs (s, p)) as [s' p'] eqn:Heq.
  apply synced_change.
  - by apply IH.
  - unfold offered in Hev. simpl in Hev.
    pose proof (changes_values evs (s, p) d) as Hval. rewrite Heq in Hval. simpl in Hval.
    by rewrite Hval.
Qed.






Lemma loadPage_store e names mat0 mat1 mat2 mat3 stones stonesn rock rockn meshes0 meshes1 :
  (loadPage e names mat0 mat1 mat2 mat3 stones stonesn rock rockn meshes0 meshes1
            empty_panel).2
  = run [AddMaterial mat0 None; AddMaterial mat1 None; AddMaterial mat2 None;
         AddMaterial mat3 None;
         AddTexture "Stones" (Some stones) (Some stonesn);
         AddTexture "Rock" (Some rock) (Some rockn);
         AddMesh meshes0 (Some 0); AddMesh meshes1 (Some 0)]
        (newConfigurator e).
Proof. vm_compute. reflexivity. Qed.

Lemma loadPage_synced e names mat0 mat1 mat2 mat3 stones stonesn rock rockn meshes0 meshes1 :
  is_Some (meshMaterial e !! meshes0) → is_Some (meshMaterial e !! meshes1) →
  ∃ s p,
    loadPage e names mat0 mat1 mat2 mat3 stones stonesn rock rockn meshes0 meshes1
             empty_panel = (inr p, s) ∧
    synced s p ∧
    values (lidMatSelect p) = [0; 1; 2; 3] ∧ values (potMatSelect p) = [0; 1; 2; 3] ∧
    values (lidTexSelect p) = [0; 1; 2] ∧ values (potTexSelect p) = [0; 1; 2].
Proof.
  intros H0 H1.
  pose proof (loadPage_store e names mat0 mat1 mat2 mat3 stones stonesn rock rockn
                meshes0 meshes1) as Hst.
  destruct (loadPage e names mat0 mat1 mat2 mat3 stones stonesn rock rockn meshes0 meshes1
              empty_panel) as [r s] eqn:Hload.
  assert (Hwf : wf s).
  { cbn [snd] in Hst. rewrite Hst. apply wf_run, wf_newConfigurator. }
  vm_compute in Hload. injection Hload as <- <-.
  eexists _, _. split; [reflexivity |]. split; [| done].
  split; unfold values; simpl.
  - exact Hwf.
  - exists (mkMeshData meshes0 (Some 0%nat)), 0%nat, (mkMaterialData mat0 0), 0. done.
  - exists (mkMeshData meshes1 (Some 0%nat)), 0%nat, (mkMaterialData mat0 0), 0. done.
  - intros v Hv. unfold in_range. simpl.
    destruct Hv as [Hv | Hv];
      repeat (apply elem_of_cons in Hv as [-> | Hv]; [lia |]); by apply elem_of_nil in Hv.
  - intros v Hv. unfold in_range. simpl.
    destruct Hv as [Hv | Hv];
      repeat (apply elem_of_cons in Hv as [-> | Hv]; [lia |]); by apply elem_of_nil in Hv.
  - done.
  - intros i x. unfold materialAt, index. simpl. case_decide; [| done].
    destruct (Z.to_nat i) as [| [| [| [| ?]]]]; simpl; [| | | | done];
      intros [= <-]; simpl; split; apply list_elem_of_here.
Qed.

Lemma in_offered_range (v n : Z) (vs : list Z) :
  vs = Z.of_nat <$> seq 0 (Z.to_nat n) → 0 <= v < n → v ∈ vs.
Proof.
  intros -> Hv. apply list_elem_of_fmap. exists (Z.to_nat v). split; [lia |].
  apply elem_of_seq. lia.
Qed.

(** The page as main.js sets it up, when the two imported meshes come with
    a renderable material each: [createScene], [initControlPanel] on
    dropdowns without options, and the import callback all return; the
    material dropdowns offer 0 to 3 and the texture dropdowns 0 to 2; and
    after any sequence of change events that pick offered values the
    dropdowns of each mesh show the index of its material entry and the
    texture index that entry remembers. *)
Theorem loaded_page_stays_synced e names mat0 mat1 mat2 mat3 stones stonesn rock rockn
    meshes0 meshes1 evs :
  is_Some (meshMaterial e !! meshes0) → is_Some (meshMaterial e !! meshes1) →
  Forall (fun ev : Dropdown * Z =>
            0 <= ev.2 < if is_texture_dropdown ev.1 then 3 else 4) evs →
  ∃ s p,
    loadPage e names mat0 mat1 mat2 mat3 stones stonesn rock rockn meshes0 meshes1
             empty_panel = (inr p, s) ∧
    values (lidMatSelect p) = [0; 1; 2; 3] ∧ values (potMatSelect p) = [0; 1; 2; 3] ∧
    values (lidTexSelect p) = [0; 1; 2] ∧ values (potTexSelect p) = [0; 1; 2] ∧
    synced (changes evs (s, p)).1 (changes evs (s, p)).2.
Proof.
  intros H0 H1 Hevs.
  destruct (loadPage_synced e names mat0 mat1 mat2 mat3 stones stonesn rock rockn
              meshes0 meshes1 H0 H1) as (s & p & Hload & Hs & Hlm & Hpm & Hlt & Hpt).
  exists s, p. repeat (split; [done |]).
  apply synced_changes; [done |].
  eapply Forall_impl; [exact Hevs |]. intros [d v] Hv. unfold offered. simpl in *.
  destruct d; simpl in *; rewrite ?Hlm, ?Hpm, ?Hlt, ?Hpt;
    first [by apply (in_offered_range v 4) | by apply (in_offered_range v 3)].
Qed.



Lemma loaded_page_stays_synced_witness :
  is_Some (meshMaterial loaded !! 1%nat) ∧ is_Some (meshMaterial loaded !! 2%nat) ∧
  Forall (fun ev : Dropdown * Z =>
            0 <= ev.2 < if is_texture_dropdown ev.1 then 3 else 4)
         [(LidMat, 3); (PotTex, 2)] ∧
  ∃ s p,
    loadPage loaded (fun _ => "material") 10%nat 11%nat 12%nat 13%nat
             3%nat 4%nat 5%nat 6%nat 1%nat 2%nat empty_panel = (inr p, s) ∧
    values (lidMatSelect p) = [0; 1; 2; 3] ∧ values (potMatSelect p) = [0; 1; 2; 3] ∧
    values (lidTexSelect p) = [0; 1; 2] ∧ values (potTexSelect p) = [0; 1; 2] ∧
    synced (changes [(LidMat, 3); (PotTex, 2)] (s, p)).1
           (changes [(LidMat, 3); (PotTex, 2)] (s, p)).2.
Proof.
  assert (H1 : is_Some (meshMaterial loaded !! 1%nat)) by (by eexists).
  assert (H2 : is_Some (meshMaterial loaded !! 2%nat)) by (by eexists).
  assert (Hevs : Forall (fun ev : Dropdown * Z =>
                           0 <= ev.2 < if is_texture_dropdown ev.1 then 3 else 4)
                        [(LidMat, 3); (PotTex, 2)]).
  { repeat constructor; simpl; lia. }
  split; [exact H1 |]. split; [exact H2 |]. split; [exact Hevs |].
  exact (loaded_page_stays_synced loaded (fun _ => "material") 10%nat 11%nat 12%nat 13%nat
           3%nat 4%nat 5%nat 6%nat 1%nat 2%nat _ H1 H2 Hevs).
Defined.

(** ** Handlers that throw *)




(** ** Filling the dropdowns *)

Lemma add_all_options els sel : options (add_all els sel) = options sel ++ els.
Proof.
  revert sel. induction els as [| el els IH]; intros sel; simpl.
  - by rewrite app_nil_r.
  - unfold add_all in *. simpl. rewrite IH. simpl. by rewrite <- app_assoc.
Qed.

Lemma add_all_selected_Some els sel v :
  selected sel = Some v → selected (add_all els sel) = Some v.
Proof.
  revert sel. induction els as [| el els IH]; intros sel Hs; [done |].
  unfold add_all in *. simpl. apply IH. simpl. by rewrite Hs.
Qed.

Lemma add_all_selected_first els : selected (add_all els no_options) = value <$> head els.
Proof.
  destruct els as [| el els]; [done |].
  change (add_all (el :: els) no_options) with (add_all els (select_add el no_options)).
  by apply add_all_selected_Some.
Qed.

Lemma lookup_omap_seq {A} (f : nat → option A) k n i :
  (∀ j, (k ≤ j < k + n)%nat → is_Some (f j)) →
  omap f (seq k n) !! i = if decide (i < n)%nat then f (k + i)%nat else None.
Proof.
  revert k i. induction n as [| n IH]; intros k i Hf.
  { rewrite decide_False by lia. apply lookup_nil. }
  cbn [seq omap list_omap].
  destruct (Hf k ltac:(lia)) as [y Hy]. rewrite Hy. destruct i as [| i].
  - rewrite decide_True by lia. by rewrite Nat.add_0_r, Hy.
  - rewrite lookup_cons_ne_0 by done. cbn [pred].
    specialize (IH (S k) i). cbn [omap] in IH. rewrite IH by (intros; apply Hf; lia).
    replace (S k + i)%nat with (k + S i)%nat by lia.
    repeat case_decide; done || lia.
Qed.

Lemma populate_materials_returns names ixs p s :
  Forall (fun i => is_Some (material_option names s i)) ixs →
  populate_materials names ixs p s
  = (inr (with_potMatSelect (add_all (omap (material_option names s) ixs))
            (with_lidMatSelect (add_all (omap (material_option names s) ixs)) p)), s).
Proof.
  intros Hixs. revert p. induction Hixs as [| i ixs [el Hel] _ IH]; intros p.
  { by destruct p. }
  cbn [populate_materials omap list_omap]. rewrite Hel.
  unfold material_option, materialAt, index in Hel. rewrite decide_True in Hel by lia.
  rewrite Nat2Z.id in Hel.
  unfold bind at 1. unfold get_materials, gets at 1. cbn [fst snd].
  destruct (materials s !! i) as [l |] eqn:Hl; [| done]. simpl in Hel.
  unfold bind at 1. unfold defined at 1. unfold ret at 1.
  unfold bind at 1. unfold gets at 1.
  destruct (heap s !! l) as [e |] eqn:He; [| done]. simpl in Hel.
  unfold bind at 1. unfold defined at 1. unfold ret at 1.
  rewrite IH. injection Hel as <-. by destruct p.
Qed.

Lemma populate_textures_returns ixs p s :
  Forall (fun i => is_Some (texture_option s i)) ixs →
  populate_textures ixs p s
  = (inr (with_potTexSelect (add_all (omap (texture_option s) ixs))
            (with_lidTexSelect (add_all (omap (texture_option s) ixs)) p)), s).
Proof.
  intros Hixs. revert p. induction Hixs as [| i ixs [el Hel] _ IH]; intros p.
  { by destruct p. }
  cbn [populate_textures omap list_omap]. rewrite Hel.
  unfold texture_option in Hel.
  unfold bind at 1. unfold get_textures, gets at 1. cbn [fst snd].
  destruct (textures s !! i) as [td |] eqn:Htd; [| done]. simpl in Hel.
  unfold bind at 1. unfold defined at 1. unfold ret at 1.
  rewrite IH. injection Hel as <-. by destruct p.
Qed.

Lemma material_option_is_Some names s i :
  wf s → (i < length (materials s))%nat → is_Some (material_option names s i).
Proof.
  intros Hwf Hi. unfold material_option.
  destruct (lookup_lt_is_Some_2 (materials s) i Hi) as [l Hl].
  assert (Hidx : index (materials s) (Z.of_nat i) = Some l).
  { apply index_Some. split; [lia |]. by rewrite Nat2Z.id. }
  destruct (wf_index_materials s _ l Hwf Hidx) as [e He].
  unfold materialAt. rewrite Hidx. simpl. rewrite He. by eexists.
Qed.

Lemma material_option_None names s i :
  (length (materials s) ≤ i)%nat → material_option names s i = None.
Proof.
  intros Hi. unfold material_option, materialAt.
  assert (index (materials s) (Z.of_nat i) = None) as ->; [| done].
  apply index_None. unfold in_range. lia.
Qed.

Lemma options_of_indices {A} (f : nat → option A) n i :
  (∀ j, (j < n)%nat → is_Some (f j)) → (∀ j, (n ≤ j)%nat → f j = None) →
  omap f (seq 0 n) !! i = f i.
Proof.
  intros Hlt Hge. rewrite lookup_omap_seq by (intros; apply Hlt; lia).
  case_decide; [done |]. symmetry. apply Hge. lia.
Qed.

(** [initControlPanel] on dropdowns without options, in a well-formed store:
    it returns and writes nothing to the store; the two material dropdowns
    are alike, and so are the two texture dropdowns; option [i] of a material
    dropdown has value [i] and the name of the renderable material of entry
    [i] as its text, option [i] of a texture dropdown has value [i] and the
    name of texture entry [i], and there are no other options; the first
    option, value 0, is the selected one. *)
Theorem initControlPanel_offers names s :
  wf s →
  ∃ p, initControlPanel names empty_panel s = (inr p, s) ∧
       potMatSelect p = lidMatSelect p ∧
       potTexSelect p = lidTexSelect p ∧
       (∀ i, options (lidMatSelect p) !! i = material_option names s i) ∧
       (∀ i, options (lidTexSelect p) !! i = texture_option s i) ∧
       selected (lidMatSelect p) = (if decide (materials s = []) then None else Some 0) ∧
       selected (lidTexSelect p) = (if decide (textures s = []) then None else Some 0).
Proof.
  intros Hwf.
  assert (Hm : ∀ j, (j < length (materials s))%nat → is_Some (material_option names s j))
    by (intros; by apply material_option_is_Some).
  assert (Ht : ∀ j, (j < length (textures s))%nat → is_Some (texture_option s j)).
  { intros j [td Htd]%lookup_lt_is_Some_2. unfold texture_option. rewrite Htd. by eexists. }
  assert (Ht' : ∀ j, (length (textures s) ≤ j)%nat → texture_option s j = None).
  { intros j Hj. unfold texture_option. by rewrite lookup_ge_None_2. }
  eexists. split.
  { unfold initControlPanel, bind at 1. unfold get_materials, gets at 1. cbn [fst snd].
    unfold bind at 1. rewrite populate_materials_returns
      by (apply Forall_forall; intros j Hj%elem_of_seq; apply Hm; lia).
    unfold bind at 1. unfold get_textures, gets at 1. cbn [fst snd].
    rewrite populate_textures_returns
      by (apply Forall_forall; intros j Hj%elem_of_seq; apply Ht; lia).
    reflexivity. }
  cbn [potMatSelect lidMatSelect potTexSelect lidTexSelect with_potMatSelect
         with_lidMatSelect with_potTexSelect with_lidTexSelect empty_panel].
  split; [done |]. split; [done |].
  split; [| split; [| split]].
  - intros i. rewrite add_all_options. simpl.
    apply options_of_indices; [done |]. intros. by apply material_option_None.
  - intros i. rewrite add_all_options. simpl. by apply options_of_indices.
  - rewrite add_all_selected_first, head_lookup.
    rewrite options_of_indices; [| done | intros; by apply material_option_None].
    case_decide as Hnil.
    + rewrite material_option_None; [done |]. rewrite Hnil. simpl. lia.
    + destruct (Hm 0%nat) as [el Hel].
      { destruct (materials s); [done | simpl; lia]. }
      rewrite Hel. unfold material_option in Hel.
      destruct (materialAt s (Z.of_nat 0)); [| done]. by injection Hel as <-.
  - rewrite add_all_selected_first, head_lookup.
    rewrite options_of_indices by done.
    case_decide as Hnil.
    + rewrite Ht'; [done |]. rewrite Hnil. simpl. lia.
    + unfold texture_option. destruct (textures s) as [| td ts]; done.
Qed.

Lemma initControlPanel_offers_witness :
  wf page ∧
  ∃ p, initControlPanel (fun _ => "material") empty_panel page = (inr p, page) ∧
       potMatSelect p = lidMatSelect p ∧
       potTexSelect p = lidTexSelect p ∧
       (∀ i, options (lidMatSelect p) !! i = material_option (fun _ => "material") page i) ∧
       (∀ i, options (lidTexSelect p) !! i = texture_option page i) ∧
       selected (lidMatSelect p) = (if decide (materials page = []) then None else Some 0) ∧
       selected (lidTexSelect p) = (if decide (textures page = []) then None else Some 0).
Proof.
  split; [exact wf_page |].
  exact (initControlPanel_offers (fun _ => "material") page wf_page).
Defined.
